(** * anutimetable: the selection-state reducers and parsers of [src/App.js]

    A shallow embedding of the pure parts of the [App] component: the
    module normalizer ([processModule] and the [setModules] effect), the
    selection reducer, the occurrence parser and reducer, and the
    hidden-events reducer.  Calls to the query-parameter helpers and to
    [console.error] are recorded as a trace of events; a thrown exception
    ends the computation and keeps the events emitted before it. *)

From Stdlib Require Import NArith Ascii String List Bool Lia.
From stdpp Require Import base option list gmap strings pretty.

Open Scope string_scope.
Open Scope list_scope.

(** ** Effects *)

(** A computation that emits events of type [E] and either returns a value
    or throws ([result = None]). *)
Record Eff (E A : Type) : Type := MkEff { writes : list E; result : option A }.
Arguments MkEff {E A} _ _.
Arguments writes {E A} _.
Arguments result {E A} _.

Definition eff_bind {E A B} (k : A → Eff E B) (m : Eff E A) : Eff E B :=
  match result m with
  | Some a => MkEff (writes m ++ writes (k a)) (result (k a))
  | None => MkEff (writes m) None
  end.

#[global] Instance eff_ret {E} : MRet (Eff E) := λ A a, MkEff [] (Some a).
#[global] Instance eff_mbind {E} : MBind (Eff E) := λ A B, eff_bind.

Definition tell {E} (e : E) : Eff E unit := MkEff [e] (Some tt).
Definition throw {E A} : Eff E A := MkEff [] None.

(** [l.forEach(f)] *)
Fixpoint forEach {E A} (l : list A) (f : A → Eff E unit) : Eff E unit :=
  match l with
  | [] => mret tt
  | x :: l' => f x ;; forEach l' f
  end.

(** ** Query parameters *)

(** One call to a helper of [./utils].  [SetParam name None] is the call
    [setQueryParam(name)] with no second argument. *)
Inductive cmd : Type :=
  | SetParam (name : string) (value : option string)
  | UnsetParam (name : string).

#[global] Instance cmd_eq_dec : EqDecision cmd.
Proof. solve_decision. Defined.

(** The parameter a call writes to. *)
Definition target (c : cmd) : string :=
  match c with SetParam name _ => name | UnsetParam name => name end.

Definition setQueryParam (name : string) (value : option string) : Eff cmd unit :=
  tell (SetParam name value).
Definition unsetQueryParam (name : string) : Eff cmd unit :=
  tell (UnsetParam name).

(** Modelled from the spec: the Query-Param Codec, [setQueryParam] and
    [unsetQueryParam] of [./utils], whose source is not part of [App.js].
    [unsetParam] removes the parameter and does nothing when it is absent;
    [setParam] sets or replaces the parameter, is the same as [unsetParam]
    when the value is empty, and called with no value sets the parameter as a
    presence-only flag, which the URL carries as an empty value. *)
Definition unsetParam (name : string) (q : gmap string string) : gmap string string :=
  delete name q.

Definition setParam (name : string) (value : option string) (q : gmap string string)
  : gmap string string :=
  match value with
  | None => <[name := ""]> q
  | Some v => if decide (v = "") then unsetParam name q else <[name := v]> q
  end.

Definition exec (q : gmap string string) (c : cmd) : gmap string string :=
  match c with
  | SetParam name value => setParam name value q
  | UnsetParam name => unsetParam name q
  end.

(** The URL after the writes of a computation, in the order they were made. *)
Definition run {A} (m : Eff cmd A) (q : gmap string string) : gmap string string :=
  foldl exec q (writes m).

(** ** Reducer actions: [{ type, values }] *)
Record Action (V : Type) : Type := MkAction { type : string; values : V }.
Arguments MkAction {V} _ _.
Arguments type {V} _.
Arguments values {V} _.

(** ** Hidden-events reducer *)

(** A component of an event key, as [Array.prototype.join] prints it: a
    string, or a natural number, which is printed as its decimal digits when
    it is below 2^53; the statements that read the printed digits are made
    for such numbers ([safe_key]). *)
Inductive component : Type :=
  | Num (n : N)
  | Str (s : string).

Definition toString (c : component) : string :=
  match c with
  | Num n => pretty n
  | Str s => s
  end.

(** [l.join(sep)] on an array of strings *)
Fixpoint join (sep : string) (l : list string) : string :=
  match l with
  | [] => ""
  | x :: l' =>
      match l' with
      | [] => x
      | _ :: _ => x +:+ sep +:+ join sep l'
      end
  end.

Definition EventKey : Type := list component.

(** [state.map(x => x.join('_')).join(',')] *)
Definition hideParam (state : list EventKey) : string :=
  join "," (map (λ x, join "_" (map toString x)) state).

Definition changeHidden (state : list EventKey) (action : Action EventKey)
  : Eff cmd (list EventKey) :=
  if decide (type action = "reset") then
    unsetQueryParam "hide" ;;
    mret []
  else if decide (type action = "hide") then
    let hide := hideParam state in
    (if (0 <? String.length hide)%nat
     then setQueryParam "hide" (Some hide)
     else unsetQueryParam "hide") ;;
    mret (state ++ [values action])
  else throw.

(** ** Occurrence reducer *)

(** [[module, groupId, occurrence]].  The number is printed by
    [groupId + occurrence] as its decimal digits when it is below 2^53; the
    statements that read the value a [select] writes are made for such
    numbers ([safe_integer]). *)
Definition Occurrence : Type := string * string * N.

Definition changeOccurrences (state : list Occurrence) (action : Action Occurrence)
  : Eff cmd (list Occurrence) :=
  let '(module, groupId, occurrence) := values action in
  if decide (type action = "select") then
    setQueryParam module (Some (groupId +:+ pretty occurrence)) ;;
    mret (state ++ [values action])
  else if decide (type action = "reset") then
    setQueryParam module (Some "") ;;
    mret (List.filter
            (λ '(m, g, o),
               negb (String.eqb m module && String.eqb g groupId && N.eqb o occurrence))
            state)
  else throw.

(** Dispatching an action: the reducer's next state and the URL after its
    writes; [None] when the reducer throws. *)
Definition dispatch {S V} (reducer : S → Action V → Eff cmd S)
    (sq : S * gmap string string) (a : Action V) : option (S * gmap string string) :=
  let m := reducer sq.1 a in
  match result m with
  | Some s' => Some (s', run m sq.2)
  | None => None
  end.

(** A run of dispatches, one after the other. *)
Definition dispatchAll {S V} (reducer : S → Action V → Eff cmd S)
    (sq : S * gmap string string) (l : list (Action V)) : option (S * gmap string string) :=
  foldl (λ acc a, acc ≫= λ sq', dispatch reducer sq' a) (Some sq) l.

(** ** Selection reducer *)

(** A module object is known by its reference: [Array.prototype.includes]
    compares objects by identity.  The objects are never mutated, so their
    [id] field is a function [id_of] of the reference. *)
Definition ref : Type := positive.

Definition includes (l : list ref) (m : ref) : bool := existsb (Pos.eqb m) l.

Definition selectedModulesReducer (id_of : ref → string)
    (state updatedModules : list ref) : Eff cmd (list ref) :=
  forEach state (λ m,
    if negb (includes updatedModules m) then unsetQueryParam (id_of m) else mret tt) ;;
  forEach updatedModules (λ m,
    if negb (includes state m) then setQueryParam (id_of m) None else mret tt) ;;
  mret updatedModules.

(** ** Occurrence spec parser *)

Definition is_digit (c : ascii) : bool :=
  let n := nat_of_ascii c in (48 <=? n)%nat && (n <=? 57)%nat.

(** [s.split(sep)] for a one-character separator *)
Fixpoint split (sep : ascii) (s : string) : list string :=
  match s with
  | "" => [""]
  | String c s' =>
      if Ascii.eqb c sep then "" :: split sep s'
      else match split sep s' with
           | t :: ts => String c t :: ts
           | [] => [String c ""]
           end
  end.

(** The pattern of [getSpecOccurrences] is [[^0-9]*] (group 1), then
    [[0-9]+] (group 2), then [$].

    Group 2 and the end anchor, tried at the start of [s]: the greedy run
    of digits takes one more digit first and only then tries to stop, where
    the anchor asks for the end of the input. *)
Fixpoint digits_to_end (s : string) : option string :=
  match s with
  | "" => None
  | String c s' =>
      if is_digit c then
        match digits_to_end s' with
        | Some d => Some (String c d)
        | None => match s' with "" => Some (String c "") | String _ _ => None end
        end
      else None
  end.

(** The whole pattern tried at the start of [s]: group 1 is a greedy run
    of non-digits, which takes one more non-digit first and gives it back
    when the rest fails to match; then come group 2 and the end. *)
Fixpoint match_here (s : string) : option (string * string) :=
  let stop := (λ d, ("", d)) <$> digits_to_end s in
  match s with
  | "" => stop
  | String c s' =>
      if is_digit c then stop
      else match match_here s' with
           | Some (g, d) => Some (String c g, d)
           | None => stop
           end
  end.

(** [o.match(...)] with that pattern: the first start position, from the
    left, at which the pattern matches; the result holds [r[1]] and [r[2]]. *)
Fixpoint regex_match (o : string) : option (string * string) :=
  match match_here o with
  | Some r => Some r
  | None => match o with "" => None | String _ o' => regex_match o' end
  end.

Definition digit_value (c : ascii) : N := N.of_nat (nat_of_ascii c - 48).

Fixpoint parseInt_from (acc : N) (s : string) : N :=
  match s with
  | "" => acc
  | String c s' => if is_digit c then parseInt_from (10 * acc + digit_value c) s' else acc
  end.

(** [parseInt(s)] where [s] starts with a decimal digit: the value of the
    leading digits.  This is the number the code gets when the value is below
    2^53; from there on the code gets the double that [parseInt] rounds to,
    which this definition does not follow, and the statements that read the
    number are made below 2^53 ([safe_integer]). *)
Definition parseInt (s : string) : N := parseInt_from 0 s.

(** [l.flatMap(f)] when [f] may log *)
Fixpoint flatMap {E A B} (l : list A) (f : A → Eff E (list B)) : Eff E (list B) :=
  match l with
  | [] => mret []
  | x :: l' => ys ← f x; zs ← flatMap l' f; mret (ys ++ zs)
  end.

(** [console.error("Failed to find regex ... for input", o)] *)
Definition console_error (o : string) : Eff string unit := tell o.

(** What one token [o] of the occurrence string of [module] gives. *)
Definition tokenOccurrence (id_of : ref → string) (selectedModules : list ref)
    (module o : string) : Eff string (list Occurrence) :=
  if String.eqb o "" || negb (existsb (String.eqb module) (map id_of selectedModules))
  then mret []
  else match regex_match o with
       | None => console_error o ;; mret []
       | Some (r1, r2) =>
           if String.eqb r2 "" then console_error o ;; mret []
           else mret [(module, r1, parseInt r2)]
       end.

Definition getSpecOccurrences (id_of : ref → string) (selectedModules : list ref)
    (m : list (string * string)) : Eff string (list Occurrence) :=
  flatMap m (λ '(module, occurrences),
    flatMap (split "," occurrences) (tokenOccurrence id_of selectedModules module)).

(** ** Module normalizer *)

(** A field of a dataset entry: a string, or any other JSON value. *)
Inductive field (V : Type) : Type :=
  | Text (s : string)
  | Other (v : V).
Arguments Text {V} _.
Arguments Other {V} _.

Definition is_upper (c : ascii) : bool :=
  let n := nat_of_ascii c in (65 <=? n)%nat && (n <=? 90)%nat.
Definition is_1_to_9 (c : ascii) : bool :=
  let n := nat_of_ascii c in (49 <=? n)%nat && (n <=? 57)%nat.

(** [/_[A-Z][1-9]/] tried at the start of [s]: what follows the match. *)
Definition tag_here (s : string) : option string :=
  match s with
  | String u (String a (String b rest)) =>
      if Ascii.eqb u "_" && is_upper a && is_1_to_9 b then Some rest else None
  | _ => None
  end.

(** [title.replace(/_[A-Z][1-9]/, '')]: the first match from the left is removed. *)
Fixpoint replace_tag (title : string) : string :=
  match tag_here title with
  | Some rest => rest
  | None =>
      match title with
      | "" => ""
      | String c title' => String c (replace_tag title')
      end
  end.

(** [processModule]: [None] when [title.replace] throws, the [title] field
    not being a string. *)
Definition processModule {V} (raw : gmap string (field V))
  : option (gmap string (field V)) :=
  match raw !! "title" with
  | Some (Text title) =>
      let module := delete "title" (delete "id" (delete "classes" raw)) in
      Some (<["title" := Text (replace_tag title)]> module)
  | _ => None
  end.

(** [key.split('_')[0]] *)
Definition module_code (key : string) : string := hd "" (split "_" key).

(** The callback of [reduce] in the effect that sets [modules]: the accumulator
    with the record of [module] under the code of [key]; [None] once a
    [processModule] has thrown. *)
Definition addModule {V} (acc : option (gmap string (gmap string (field V))))
    (entry : string * gmap string (field V))
  : option (gmap string (gmap string (field V))) :=
  let '(key, module) := entry in
  acc ← acc; r ← processModule module; Some (<[module_code key := r]> acc).

(** The value the effect passes to [setModules]: [Object.entries(timetableData)]
    reduced from the left, starting from the empty object. *)
Definition setModules {V} (timetableData : list (string * gmap string (field V)))
  : option (gmap string (gmap string (field V))) :=
  foldl addModule (Some ∅) timetableData.

(** After the specification's words: the title without a trailing tag made
    of an underscore, a letter and a digit; a title that does not end in such
    a tag is unchanged. *)
Definition is_letter (c : ascii) : bool :=
  let n := nat_of_ascii c in
  ((65 <=? n)%nat && (n <=? 90)%nat) || ((97 <=? n)%nat && (n <=? 122)%nat).

Fixpoint strip_trailing_tag (title : string) : string :=
  match title with
  | "" => ""
  | String u rest =>
      match rest with
      | String a (String b "") =>
          if Ascii.eqb u "_" && is_letter a && is_digit b then ""
          else String u (strip_trailing_tag rest)
      | _ => String u (strip_trailing_tag rest)
      end
  end.

(** A match of the title pattern starts somewhere in [s]. *)
Fixpoint has_tag (s : string) : bool :=
  match tag_here s with
  | Some _ => true
  | None => match s with "" => false | String _ s' => has_tag s' end
  end.

(** ** Shapes of tokens, for the statements below *)

Fixpoint all_chars (p : ascii → bool) (s : string) : bool :=
  match s with
  | "" => true
  | String c s' => p c && all_chars p s'
  end.

Definition non_digit (c : ascii) : bool := negb (is_digit c).

(** The last character of [s] is a decimal digit. *)
Fixpoint ends_in_digit (s : string) : bool :=
  match s with
  | "" => false
  | String c s' =>
      match s' with
      | "" => is_digit c
      | String _ _ => ends_in_digit s'
      end
  end.

Fixpoint skip_non_digits (s : string) : string :=
  match s with
  | "" => ""
  | String c s' => if is_digit c then s else skip_non_digits s'
  end.

(** After the specification's words, [<non-digits><digits>]: the whole token
    is a run of non-digits followed by a run of one or more digits. *)
Definition non_digits_then_digits (t : string) : bool :=
  let d := skip_non_digits t in
  negb (String.eqb d "") && all_chars is_digit d.

(** ** Initial state of the selection reducer *)

(** [m.map(([id]) => ({ id }))]: one new object per pair of [m]; the object
    made for the pair at index [i] is given the reference [i + 1]. *)
Definition initialSelectedModules (m : list (string * string)) : list ref :=
  map Pos.of_succ_nat (seq 0 (length m)).

(** The [id] field of these objects: the first component of their pair. *)
Definition initial_id_of (m : list (string * string)) (r : ref) : string :=
  default "" (fst <$> m !! pred (Pos.to_nat r)).

(** ** Preferences kept in [localStorage] *)

(** [localStorage] is a map from keys to strings; [getItem] of a missing key
    is [null], and reading a missing key as a property is [undefined]. *)

(** [tc.loadTheme], with the [darkMode] state threaded through. *)
Definition loadTheme (localStorage : gmap string string) (darkMode : bool)
  : string * bool :=
  let theme := localStorage !! "darkMode" in
  if decide (theme = Some "true") then ("dark", true) else ("light", darkMode).

(** [tc.saveTheme(theme)] *)
Definition saveTheme (theme : string) (localStorage : gmap string string)
  : gmap string string * bool :=
  (<["darkMode" := if decide (theme = "dark") then "true" else "false"]> localStorage,
   bool_decide (theme = "dark")).

(** A string or [undefined] is truthy when it is a non-empty string. *)
Definition truthy (v : option string) : bool :=
  match v with
  | Some s => negb (String.eqb s "")
  | None => false
  end.

(** [tz.replace(/^UTC$/, 'Etc/GMT')]: the pattern matches the whole of
    ["UTC"] and nothing else. *)
Definition replace_UTC (tz : string) : string :=
  if decide (tz = "UTC") then "Etc/GMT" else tz.

(** What the browser gives for
    [Intl.DateTimeFormat()?.resolvedOptions()?.timeZone].  The optional
    chaining guards a call that returns [null] or [undefined], not a call of
    something that is not a function: [DateTimeFormatNotCallable] is [Intl]
    or [Intl.DateTimeFormat] missing, [ResolvedOptionsNotCallable] is a
    formatter without [resolvedOptions], and both calls throw;
    [NoDateTimeFormat] and [NoResolvedOptions] are the calls returning [null]
    or [undefined]; [NoTimeZone] is options whose [timeZone] is not a
    string. *)
Inductive IntlTimeZone : Type :=
  | DateTimeFormatNotCallable
  | ResolvedOptionsNotCallable
  | NoDateTimeFormat
  | NoResolvedOptions
  | NoTimeZone
  | TimeZone (tz : string).

(** The initial value of the [timeZone] state; [None] when the expression
    throws: a call of something that is not a function, or [replace] called
    on a [timeZone] that is [undefined].  The browser is not asked when the
    stored value is truthy. *)
Definition initialTimeZone (stored : option string) (intl : IntlTimeZone)
  : option string :=
  if truthy stored then stored
  else
    match intl with
    | DateTimeFormatNotCallable | ResolvedOptionsNotCallable => None
    | NoDateTimeFormat | NoResolvedOptions => Some "Australia/Canberra"
    | NoTimeZone => None
    | TimeZone tz =>
        if truthy (Some (replace_UTC tz)) then Some (replace_UTC tz)
        else Some "Australia/Canberra"
    end.

(** The effect [localStorage.timeZone = timeZone] *)
Definition storeTimeZone (timeZone : string) (localStorage : gmap string string)
  : gmap string string :=
  <["timeZone" := timeZone]> localStorage.

(** The effect that reads [weekStart].  [jsParseInt] is the built-in
    [parseInt], [None] standing for [NaN], with which every comparison is
    false. *)
Definition weekStartEffect (jsParseInt : string → option Z)
    (localStorage : gmap string string) (weekStart : Z)
  : gmap string string * Z :=
  match localStorage !! "weekStart" with
  | Some localWeekStart =>
      if truthy (Some localWeekStart) then
        match jsParseInt localWeekStart with
        | Some n =>
            if ((0 <=? n)%Z && (n <=? 6)%Z)%bool then (localStorage, n)
            else (delete "weekStart" localStorage, weekStart)
        | None => (delete "weekStart" localStorage, weekStart)
        end
      else (localStorage, weekStart)
  | None => (localStorage, weekStart)
  end.

(** An array is an object, and every object is truthy. *)
Definition array_truthy {A} (l : list A) : bool := true.

(** The effect that reads [hiddenDays]: the callback of [reduce] appends
    [[parseInt(x)] || []]. *)
Definition hiddenDaysEffect (jsParseInt : string → option Z)
    (localStorage : gmap string string) (hiddenDays : list (option Z))
  : list (option Z) :=
  match localStorage !! "hiddenDays" with
  | Some stored =>
      let localHiddenDays :=
        foldl (λ acc x,
                 acc ++ (if array_truthy [jsParseInt x] then [jsParseInt x] else []))
              [] (split "," stored) in
      if array_truthy localHiddenDays then localHiddenDays else hiddenDays
  | None => hiddenDays
  end.

(** ** Numbers held exactly *)

(** A JavaScript number holds a natural number exactly, and prints it as
    its decimal digits, when it is below 2^53. *)
Definition safe_integer (n : N) : bool := (n <? 2 ^ 53)%N.

(** The digits that end the token, if any, are the digits of such a number. *)
Definition safe_token (t : string) : bool :=
  match regex_match t with
  | Some (_, d) => safe_integer (parseInt d)
  | None => true
  end.

(** The numbers of an event key are such numbers. *)
Definition safe_key (k : EventKey) : bool :=
  forallb (λ c, match c with Num n => safe_integer n | Str _ => true end) k.

(** ** Examples *)

Example hide_twice :
  (changeHidden [] (MkAction "hide" [Num 1; Num 2]),
   changeHidden [[Num 1; Num 2]] (MkAction "hide" [Num 3; Num 4]))
  = (MkEff [UnsetParam "hide"] (Some [[Num 1; Num 2]]),
     MkEff [SetParam "hide" (Some "1_2")] (Some [[Num 1; Num 2]; [Num 3; Num 4]])).
Proof. vm_compute. reflexivity. Qed.

Example parse_example :
  getSpecOccurrences (λ _, "COMP1130") [1%positive] [("COMP1130", "ComA1,ComB2")]
  = MkEff [] (Some [("COMP1130", "ComA", 1%N); ("COMP1130", "ComB", 2%N)]).
Proof. vm_compute. reflexivity. Qed.

Example parse_odd :
  getSpecOccurrences (λ _, "M") [1%positive] [("M", "A1B2,12,x,,Tut");("N","A1")]
  = MkEff ["x"; "Tut"] (Some [("M", "B", 2%N); ("M", "", 12%N)]).
Proof. vm_compute. reflexivity. Qed.

Example replace_examples :
  map replace_tag ["COMP1130_S1 Programming"; "X_A0"; "X_a1"; "A_B1_C2"; "plain"]
  = ["COMP1130 Programming"; "X_A0"; "X_a1"; "A_C2"; "plain"].
Proof. vm_compute. reflexivity. Qed.

Example split_examples :
  (split "," "", split "," "a,,b,", module_code "COMP1130_S1", module_code "COMP")
  = ([""], ["a"; ""; "b"; ""], "COMP1130", "COMP").
Proof. vm_compute. reflexivity. Qed.

(** * Properties *)

Ltac eff_simpl :=
  unfold setQueryParam, unsetQueryParam, console_error, tell, throw,
    mbind, mret, eff_mbind, eff_ret, eff_bind in *; simpl in *.

(** ** The codec *)

Lemma setParam_empty name q : setParam name (Some "") q = unsetParam name q.
Proof. reflexivity. Qed.

Lemma unsetParam_idemp name q : unsetParam name (unsetParam name q) = unsetParam name q.
Proof. unfold unsetParam. apply map_eq. intros k. rewrite !lookup_delete. repeat case_decide; done. Qed.

Lemma pretty_N_go_nonempty (x : N) (s : string) : s ≠ "" → pretty_N_go x s ≠ "".
Proof.
  revert s. induction (N.lt_wf_0 x) as [x _ IH]. intros s Hs.
  destruct (decide (0 < x)%N) as [Hx|Hx].
  - rewrite pretty_N_go_step by done. apply IH; [|done].
    apply N.div_lt; lia.
  - assert (x = 0%N) as -> by lia. by rewrite pretty_N_go_0.
Qed.

Lemma pretty_N_nonempty (x : N) : pretty x ≠ "".
Proof.
  unfold pretty, pretty_N. case_decide; [done|].
  destruct (decide (0 < x)%N) as [Hx|Hx]; [|lia].
  rewrite pretty_N_go_step by done. by apply pretty_N_go_nonempty.
Qed.

Lemma append_nonempty_r (a b : string) : b ≠ "" → a +:+ b ≠ "".
Proof. destruct a; simpl; [done|]. intros _. unfold String.append. discriminate. Qed.

(** ** Hidden-events reducer *)

Lemma changeHidden_reset state v :
  changeHidden state (MkAction "reset" v) = MkEff [UnsetParam "hide"] (Some []).
Proof. reflexivity. Qed.

(** A [hide] writes the join of the keys stored before it, and appends. *)
Lemma changeHidden_hide state k :
  changeHidden state (MkAction "hide" k)
  = MkEff [if (0 <? String.length (hideParam state))%nat
           then SetParam "hide" (Some (hideParam state))
           else UnsetParam "hide"]
          (Some (state ++ [k])).
Proof.
  unfold changeHidden. simpl.
  destruct (0 <? String.length (hideParam state))%nat; reflexivity.
Qed.

(** C1.  From the empty sequence, [hide([1,2])] and then [hide([3,4])] store
    both keys, whose join is ["1_2,3_4"], but leave the [hide] parameter at
    ["1_2"]: each [hide] writes the join of the sequence it received, without
    the key it appends. *)
Theorem hide_param_misses_last_key (q : gmap string string) :
  ∃ s' q',
    dispatchAll changeHidden ([], q)
      [MkAction "hide" [Num 1; Num 2]; MkAction "hide" [Num 3; Num 4]] = Some (s', q')
    ∧ s' = [[Num 1; Num 2]; [Num 3; Num 4]]
    ∧ hideParam s' = "1_2,3_4"
    ∧ q' !! "hide" = Some "1_2".
Proof.
  eexists _, _. split; [reflexivity|]. split; [reflexivity|]. split; [reflexivity|].
  unfold run. simpl. unfold setParam. simpl. apply lookup_insert_eq.
Qed.

(** C6.  An action whose type is none of the reducer's kinds makes the
    reducer throw before any call to a query-parameter helper: the trace of
    writes is empty, no next state is returned, and the URL is as before. *)
Theorem unknown_action_throws
    (so : list Occurrence) (ao : Action Occurrence)
    (sh : list EventKey) (ah : Action EventKey) (q : gmap string string) :
  type ao ≠ "select" → type ao ≠ "reset" →
  type ah ≠ "hide" → type ah ≠ "reset" →
  changeOccurrences so ao = MkEff [] None
  ∧ changeHidden sh ah = MkEff [] None
  ∧ run (changeOccurrences so ao) q = q
  ∧ run (changeHidden sh ah) q = q
  ∧ dispatch changeOccurrences (so, q) ao = None
  ∧ dispatch changeHidden (sh, q) ah = None.
Proof.
  intros H1 H2 H3 H4.
  assert (changeOccurrences so ao = MkEff [] None) as Eo.
  { unfold changeOccurrences. destruct (values ao) as [[m g] o].
    repeat case_decide; done. }
  assert (changeHidden sh ah = MkEff [] None) as Eh.
  { unfold changeHidden. repeat case_decide; done. }
  unfold dispatch, run. simpl. rewrite Eo, Eh. done.
Qed.

Lemma unknown_action_throws_witness :
  changeOccurrences [("COMP1130", "ComA", 1%N)] (MkAction "toggle" ("COMP1130", "ComA", 2%N))
    = MkEff [] None
  ∧ changeHidden [[Num 1; Num 2]] (MkAction "show" [Num 1; Num 2]) = MkEff [] None.
Proof.
  pose proof (unknown_action_throws
    [("COMP1130", "ComA", 1%N)] (MkAction "toggle" ("COMP1130", "ComA", 2%N))
    [[Num 1; Num 2]] (MkAction "show" [Num 1; Num 2]) ∅) as H.
  simpl in H.
  destruct H as (Ho & Hh & _); [discriminate | discriminate | discriminate | discriminate |].
  split; [exact Ho | exact Hh].
Defined.

(** ** Occurrence reducer *)

Lemma changeOccurrences_select state m g n :
  changeOccurrences state (MkAction "select" (m, g, n))
  = MkEff [SetParam m (Some (g +:+ pretty n))] (Some (state ++ [(m, g, n)])).
Proof. reflexivity. Qed.

(** The test that [reset] filters with is inequality of triples. *)
Lemma differs_spec (m g : string) (n : N) (t : Occurrence) :
  (let '(m', g', o') := t in negb (String.eqb m' m && String.eqb g' g && N.eqb o' n))
  = negb (bool_decide (t = (m, g, n))).
Proof.
  destruct t as [[m' g'] o']. f_equal.
  destruct (String.eqb_spec m' m) as [->|Hm]; simpl.
  - destruct (String.eqb_spec g' g) as [->|Hg]; simpl.
    + destruct (N.eqb_spec o' n) as [->|Ho].
      * by rewrite bool_decide_eq_true_2.
      * rewrite bool_decide_eq_false_2; [done|congruence].
    + rewrite bool_decide_eq_false_2; [done|congruence].
  - rewrite bool_decide_eq_false_2; [done|congruence].
Qed.

Lemma changeOccurrences_reset state m g n :
  changeOccurrences state (MkAction "reset" (m, g, n))
  = MkEff [SetParam m (Some "")]
          (Some (List.filter (λ t, negb (bool_decide (t = (m, g, n)))) state)).
Proof.
  unfold changeOccurrences. simpl. eff_simpl. do 2 f_equal.
  apply List.filter_ext. intros t. apply differs_spec.
Qed.

Lemma filter_idemp {A} (f : A → bool) (l : list A) :
  List.filter f (List.filter f l) = List.filter f l.
Proof.
  induction l as [|a l IH]; simpl; [done|].
  destruct (f a) eqn:E; simpl; rewrite ?E; congruence.
Qed.

Lemma filter_absent (t : Occurrence) (l : list Occurrence) :
  t ∉ l → List.filter (λ x, negb (bool_decide (x = t))) l = l.
Proof.
  induction l as [|a l IH]; simpl; [done|].
  intros [Hne Hnin]%not_elem_of_cons.
  rewrite bool_decide_eq_false_2 by congruence. simpl. by rewrite IH.
Qed.

Lemma filter_app_self (t : Occurrence) (l : list Occurrence) :
  List.filter (λ x, negb (bool_decide (x = t))) (l ++ [t])
  = List.filter (λ x, negb (bool_decide (x = t))) l.
Proof.
  rewrite List.filter_app. simpl. rewrite bool_decide_eq_true_2 by done.
  simpl. apply app_nil_r.
Qed.

(** What [select(m,g,n)] followed by [reset(m,g,n)] leaves. *)
Lemma select_reset_result (s : list Occurrence) (q : gmap string string) m g n :
  dispatchAll changeOccurrences (s, q)
    [MkAction "select" (m, g, n); MkAction "reset" (m, g, n)]
  = Some (List.filter (λ t, negb (bool_decide (t = (m, g, n)))) s,
          unsetParam m (setParam m (Some (g +:+ pretty n)) q)).
Proof.
  unfold dispatchAll. simpl. unfold dispatch. rewrite changeOccurrences_reset.
  simpl. rewrite filter_app_self. reflexivity.
Qed.

(** C2, the claim as stated fails: a copy of the triple that was stored
    before the [select] is removed by the [reset] as well. *)
Lemma select_then_reset_drops_earlier_copy :
  ∃ s' q',
    dispatchAll changeOccurrences ([("COMP1130", "ComA", 1%N)], ∅)
      [MkAction "select" ("COMP1130", "ComA", 1%N);
       MkAction "reset" ("COMP1130", "ComA", 1%N)] = Some (s', q')
    ∧ s' = []
    ∧ s' ≠ [("COMP1130", "ComA", 1%N)].
Proof. eexists _, _. split; [reflexivity|]. split; [reflexivity|discriminate]. Qed.

(** C2, amended.  [select(m,g,n)] followed by [reset(m,g,n)] leaves the
    stored sequence without any triple equal to [(m,g,n)], which is the
    sequence before the [select] when that sequence did not hold the triple;
    the parameter of [m] is unset. *)
Theorem select_then_reset (s : list Occurrence) (q : gmap string string)
    (m g : string) (n : N) :
  ∃ s' q',
    dispatchAll changeOccurrences (s, q)
      [MkAction "select" (m, g, n); MkAction "reset" (m, g, n)] = Some (s', q')
    ∧ s' = List.filter (λ t, negb (bool_decide (t = (m, g, n)))) s
    ∧ q' !! m = None
    ∧ ((m, g, n) ∉ s → s' = s).
Proof.
  eexists _, _. split; [apply select_reset_result|]. split; [done|]. split.
  - unfold unsetParam. apply lookup_delete_eq.
  - apply filter_absent.
Qed.

Lemma select_then_reset_witness :
(("COMP1130", "ComB", 2%N) ∉ [("COMP1130", "ComA", 1%N)])
  ∧ (∃ q', dispatchAll changeOccurrences ([("COMP1130", "ComA", 1%N)], ∅)
             [MkAction "select" ("COMP1130", "ComB", 2%N);
              MkAction "reset" ("COMP1130", "ComB", 2%N)]
           = Some ([("COMP1130", "ComA", 1%N)], q')
           ∧ q' !! "COMP1130" = None).
Proof.
  assert (("COMP1130", "ComB", 2%N) ∉ [("COMP1130", "ComA", 1%N)]) as Hnin.
  { intros Hin. apply list_elem_of_singleton in Hin. discriminate. }
  split; [exact Hnin|].
  destruct (select_then_reset [("COMP1130", "ComA", 1%N)] ∅ "COMP1130" "ComB" 2%N)
    as (s' & q' & Hd & _ & Hq & Hs).
  exists q'. rewrite (Hs Hnin) in Hd. split; [exact Hd | exact Hq].
Defined.

(** C9.  A second [reset] changes nothing: on the hidden-events reducer the
    sequence is empty and [hide] unset after the first and after the second;
    on the occurrence reducer a repeated [reset(m,g,n)] returns the same
    sequence and leaves the same URL, with the parameter of [m] unset. *)
Theorem reset_twice (h : list EventKey) (v1 v2 : EventKey) (s : list Occurrence)
    (m g : string) (n : N) (q : gmap string string) :
  (∃ q1,
      dispatch changeHidden (h, q) (MkAction "reset" v1) = Some ([], q1)
      ∧ q1 !! "hide" = None
      ∧ dispatch changeHidden ([], q1) (MkAction "reset" v2) = Some ([], q1))
  ∧ (∃ s1 q1,
      dispatch changeOccurrences (s, q) (MkAction "reset" (m, g, n)) = Some (s1, q1)
      ∧ q1 !! m = None
      ∧ dispatch changeOccurrences (s1, q1) (MkAction "reset" (m, g, n)) = Some (s1, q1)).
Proof.
  split.
  - exists (unsetParam "hide" q). split; [reflexivity|]. split.
    + apply lookup_delete_eq.
    + unfold dispatch. simpl. unfold run. simpl. by rewrite unsetParam_idemp.
  - eexists _, _. unfold dispatch. rewrite !changeOccurrences_reset. simpl.
    split; [reflexivity|]. split.
    + unfold run. simpl. apply lookup_delete_eq.
    + rewrite filter_idemp. unfold run. simpl.
      change (setParam m (Some "") ?x) with (unsetParam m x).
      by rewrite unsetParam_idemp.
Qed.

(** ** Selection reducer *)

Lemma forEach_when {E A} (p : A → bool) (c : A → E) (l : list A) :
  forEach l (λ m, if p m then tell (c m) else mret tt)
  = MkEff (map c (List.filter p l)) (Some tt).
Proof.
  induction l as [|a l IH]; simpl; [done|].
  rewrite IH. destruct (p a); reflexivity.
Qed.

(** The reducer first unsets, in the order of the old state, the objects
    that are not in the new array, then sets, in the order of the new array,
    the objects that were not in the old state. *)
Lemma selectedModulesReducer_writes id_of (state updatedModules : list ref) :
  selectedModulesReducer id_of state updatedModules
  = MkEff (map (λ m, UnsetParam (id_of m))
               (List.filter (λ m, negb (includes updatedModules m)) state)
           ++ map (λ m, SetParam (id_of m) None)
                  (List.filter (λ m, negb (includes state m)) updatedModules))
          (Some updatedModules).
Proof.
  unfold selectedModulesReducer, setQueryParam, unsetQueryParam.
  rewrite (forEach_when (λ m, negb (includes updatedModules m)) (λ m, UnsetParam (id_of m))).
  rewrite (forEach_when (λ m, negb (includes state m)) (λ m, SetParam (id_of m) None)).
  unfold mbind, eff_mbind, eff_bind. simpl. by rewrite app_nil_r.
Qed.

Lemma includes_spec (l : list ref) (m : ref) : includes l m = true ↔ m ∈ l.
Proof.
  unfold includes. rewrite existsb_exists. split.
  - intros (x & Hin & ->%Pos.eqb_eq). by apply list_elem_of_In.
  - intros Hin. exists m. split; [by apply list_elem_of_In | apply Pos.eqb_refl].
Qed.

Lemma not_includes_spec (l : list ref) (m : ref) : negb (includes l m) = true ↔ m ∉ l.
Proof.
  rewrite negb_true_iff, <- includes_spec. destruct (includes l m); split; congruence.
Qed.

Lemma elem_of_filter_bool {A} (f : A → bool) (l : list A) (x : A) :
  x ∈ List.filter f l ↔ x ∈ l ∧ f x = true.
Proof. rewrite !list_elem_of_In. apply List.filter_In. Qed.

(** C4.  From the state [[A; B]] the new array [[B; C]], of three modules
    with different ids, unsets the parameter of [A], then sets the parameter
    of [C] with no value, makes no call on the parameter of [B], and is
    returned as the next state. *)
Theorem diff_AB_to_BC (id_of : ref → string) (A B C : ref) (q : gmap string string) :
  id_of A ≠ id_of B → id_of B ≠ id_of C → id_of A ≠ id_of C →
  selectedModulesReducer id_of [A; B] [B; C]
    = MkEff [UnsetParam (id_of A); SetParam (id_of C) None] (Some [B; C])
  ∧ (∀ c, c ∈ writes (selectedModulesReducer id_of [A; B] [B; C]) → target c ≠ id_of B)
  ∧ run (selectedModulesReducer id_of [A; B] [B; C]) q !! id_of A = None
  ∧ run (selectedModulesReducer id_of [A; B] [B; C]) q !! id_of C = Some ""
  ∧ run (selectedModulesReducer id_of [A; B] [B; C]) q !! id_of B = q !! id_of B.
Proof.
  intros HAB HBC HAC.
  assert (A ≠ B) as rAB by congruence.
  assert (B ≠ C) as rBC by congruence.
  assert (A ≠ C) as rAC by congruence.
  assert (selectedModulesReducer id_of [A; B] [B; C]
          = MkEff [UnsetParam (id_of A); SetParam (id_of C) None] (Some [B; C])) as E.
  { rewrite selectedModulesReducer_writes. unfold includes. simpl.
    rewrite !Pos.eqb_refl.
    rewrite (proj2 (Pos.eqb_neq A B)), (proj2 (Pos.eqb_neq A C)),
      (proj2 (Pos.eqb_neq C A)), (proj2 (Pos.eqb_neq C B)),
      (proj2 (Pos.eqb_neq B A)), (proj2 (Pos.eqb_neq B C)) by congruence.
    reflexivity. }
  rewrite E. unfold run. simpl. unfold unsetParam.
  split; [done|]. split; [|split; [|split]].
  - intros c Hc. apply elem_of_cons in Hc as [->|Hc]; simpl; [congruence|].
    apply list_elem_of_singleton in Hc as ->. simpl. congruence.
  - rewrite lookup_insert_ne by congruence. apply lookup_delete_eq.
  - apply lookup_insert_eq.
  - rewrite lookup_insert_ne by congruence. by rewrite lookup_delete_ne.
Qed.

Lemma diff_AB_to_BC_witness :
  selectedModulesReducer (λ r, pretty (Npos r)) [1; 2]%positive [2; 3]%positive
  = MkEff [UnsetParam "1"; SetParam "3" None] (Some [2; 3]%positive).
Proof.
  refine (proj1 (diff_AB_to_BC (λ r, pretty (Npos r)) 1%positive 2%positive 3%positive ∅ _ _ _));
    vm_compute; discriminate.
Defined.

(** C10, the claim as stated fails: when the old object [x] is itself still
    in the new array next to its copy [y], nothing is unset. *)
Lemma copy_beside_original_unsets_nothing :
  let id_of := λ _ : ref, "COMP1130" in
  let x := 1%positive in
  let y := 2%positive in
  x ∈ [x] ∧ y ∈ [x; y] ∧ y ≠ x ∧ id_of y = id_of x
  ∧ writes (selectedModulesReducer id_of [x] [x; y]) = [SetParam "COMP1130" None]
  ∧ UnsetParam (id_of x) ∉ writes (selectedModulesReducer id_of [x] [x; y]).
Proof.
  simpl. split; [apply list_elem_of_here|]. split; [apply list_elem_of_further, list_elem_of_here|].
  split; [discriminate|]. split; [done|]. split; [reflexivity|].
  intros Hin. apply list_elem_of_singleton in Hin. discriminate.
Qed.

(** C10, amended.  Membership is decided by reference.  If [x] is in the
    state and not in the new array, and [y] is in the new array and not in
    the state, and they have the same id, that id's parameter is unset and
    later set again.  And if no call is made on the parameter of an object
    of either array, that very object is in both. *)
Theorem membership_by_reference (id_of : ref → string) (state updatedModules : list ref) :
  (∀ x y, x ∈ state → y ∈ updatedModules → x ∉ updatedModules → y ∉ state →
          id_of y = id_of x →
          ∃ t1 t2 t3, writes (selectedModulesReducer id_of state updatedModules)
                      = t1 ++ UnsetParam (id_of x) :: t2 ++ SetParam (id_of x) None :: t3)
  ∧ (∀ z, z ∈ state ∨ z ∈ updatedModules →
          (∀ c, c ∈ writes (selectedModulesReducer id_of state updatedModules) →
                target c ≠ id_of z) →
          z ∈ state ∧ z ∈ updatedModules).
Proof.
  rewrite selectedModulesReducer_writes. simpl. split.
  - intros x y Hx Hy Hxn Hyn Hid.
    assert (x ∈ List.filter (λ m, negb (includes updatedModules m)) state) as Hfx.
    { apply elem_of_filter_bool. split; [done|]. by apply not_includes_spec. }
    assert (y ∈ List.filter (λ m, negb (includes state m)) updatedModules) as Hfy.
    { apply elem_of_filter_bool. split; [done|]. by apply not_includes_spec. }
    apply list_elem_of_split in Hfx as (a1 & a2 & ->).
    apply list_elem_of_split in Hfy as (b1 & b2 & ->).
    exists (map (λ m, UnsetParam (id_of m)) a1),
      (map (λ m, UnsetParam (id_of m)) a2 ++ map (λ m, SetParam (id_of m) None) b1),
      (map (λ m, SetParam (id_of m) None) b2).
    rewrite !map_app. simpl. rewrite Hid. by rewrite <- !app_assoc.
  - intros z Hz Hquiet.
    assert (z ∈ state → z ∈ updatedModules) as H1.
    { intros Hin. destruct (decide (z ∈ updatedModules)) as [|Hn]; [done|].
      exfalso. apply (Hquiet (UnsetParam (id_of z))); [|done].
      apply elem_of_app. left. apply (list_elem_of_fmap_2 (λ m, UnsetParam (id_of m))).
      apply elem_of_filter_bool. split; [done|]. by apply not_includes_spec. }
    assert (z ∈ updatedModules → z ∈ state) as H2.
    { intros Hin. destruct (decide (z ∈ state)) as [|Hn]; [done|].
      exfalso. apply (Hquiet (SetParam (id_of z) None)); [|done].
      apply elem_of_app. right. apply (list_elem_of_fmap_2 (λ m, SetParam (id_of m) None)).
      apply elem_of_filter_bool. split; [done|]. by apply not_includes_spec. }
    destruct Hz; auto.
Qed.

Lemma membership_by_reference_witness :
  ∃ t1 t2 t3,
    writes (selectedModulesReducer (λ _, "COMP1130") [1%positive] [2%positive])
    = t1 ++ UnsetParam "COMP1130" :: t2 ++ SetParam "COMP1130" None :: t3.
Proof.
  refine (proj1 (membership_by_reference (λ _, "COMP1130") [1%positive] [2%positive])
            1%positive 2%positive _ _ _ _ _).
  - apply list_elem_of_here.
  - apply list_elem_of_here.
  - intros Hin. apply list_elem_of_singleton in Hin. discriminate.
  - intros Hin. apply list_elem_of_singleton in Hin. discriminate.
  - reflexivity.
Defined.

(** ** Strings *)

Lemma app_cons (c : ascii) (a b : string) : String c a +:+ b = String c (a +:+ b).
Proof. reflexivity. Qed.

Lemma app_empty_l (a : string) : "" +:+ a = a.
Proof. reflexivity. Qed.

Lemma string_app_assoc (a b c : string) : (a +:+ b) +:+ c = a +:+ b +:+ c.
Proof. induction a as [|x a IH]; [done|]. by rewrite !app_cons, IH. Qed.

Lemma string_app_nil_r (a : string) : a +:+ "" = a.
Proof. induction a as [|x a IH]; [done|]. by rewrite app_cons, IH. Qed.

Lemma all_chars_app p (a b : string) :
  all_chars p (a +:+ b) = all_chars p a && all_chars p b.
Proof.
  induction a as [|x a IH]; [done|].
  rewrite app_cons. simpl. rewrite IH. by rewrite andb_assoc.
Qed.

Lemma all_chars_false_head (g : string) :
  g ≠ "" → all_chars non_digit g = true → all_chars is_digit g = false.
Proof.
  destruct g as [|x g]; [done|]. intros _. simpl. unfold non_digit.
  destruct (is_digit x); simpl; [discriminate|done].
Qed.

Lemma eqb_empty (s : string) : String.eqb s "" = bool_decide (s = "").
Proof. destruct s; reflexivity. Qed.

Lemma ends_in_digit_app (a b : string) :
  b ≠ "" → ends_in_digit (a +:+ b) = ends_in_digit b.
Proof.
  intros Hb. induction a as [|x a IH]; [done|].
  rewrite app_cons. simpl. destruct (a +:+ b) eqn:E; [|done].
  destruct a; [|discriminate]. rewrite app_empty_l in E. done.
Qed.

Lemma ends_in_digit_all (d : string) :
  d ≠ "" → all_chars is_digit d = true → ends_in_digit d = true.
Proof.
  induction d as [|x d IH]; [done|]. intros _. simpl.
  intros [Hx Hd]%andb_true_iff. destruct d; [done|]. by apply IH.
Qed.

(** ** The pattern of the occurrence parser *)

Lemma digits_to_end_spec (s : string) :
  digits_to_end s
  = if all_chars is_digit s && negb (String.eqb s "") then Some s else None.
Proof.
  induction s as [|c s IH]; [done|].
  simpl. destruct (is_digit c); simpl; [|done].
  rewrite IH. destruct s as [|c' s]; [done|].
  simpl. rewrite !andb_true_r.
  by destruct (is_digit c' && all_chars is_digit s).
Qed.

Lemma match_here_cons (c : ascii) (s : string) :
  match_here (String c s)
  = if is_digit c then (λ d, ("", d)) <$> digits_to_end (String c s)
    else match match_here s with
         | Some (g, d) => Some (String c g, d)
         | None => (λ d, ("", d)) <$> digits_to_end (String c s)
         end.
Proof. reflexivity. Qed.

(** At a given start the pattern matches exactly the strings made of
    non-digits followed by one or more digits, and splits them there. *)
Lemma match_here_spec (s g d : string) :
  match_here s = Some (g, d)
  ↔ s = g +:+ d ∧ all_chars non_digit g = true
    ∧ all_chars is_digit d = true ∧ d ≠ "".
Proof.
  revert g d. induction s as [|c s IH]; intros g d.
  - simpl. split; [done|]. intros (E & _ & _ & Hd).
    destruct g; [|discriminate]. rewrite app_empty_l in E. congruence.
  - rewrite match_here_cons, digits_to_end_spec.
    destruct (is_digit c) eqn:Hc.
    + split.
      * destruct (all_chars is_digit (String c s) && negb (String.eqb (String c s) "")) eqn:E;
          [|done].
        intros [= <- <-]. apply andb_true_iff in E as [E _]. done.
      * intros (E & Hg & Hd & Hne). destruct g as [|x g].
        -- rewrite app_empty_l in E. subst d. by rewrite Hd.
        -- rewrite app_cons in E. injection E as <- _. simpl in Hg.
           unfold non_digit in Hg. rewrite Hc in Hg. done.
    + simpl all_chars. rewrite Hc. simpl.
      case_eq (match_here s); [intros [g' d'] Em | intros Em].
      * apply IH in Em as (-> & Hg' & Hd' & Hne). split.
        -- intros [= <- <-]. rewrite app_cons. simpl. unfold non_digit at 1.
           by rewrite Hc.
        -- intros (E & Hg & Hd & Hne2). destruct g as [|x g].
           ++ rewrite app_empty_l in E. subst d. simpl in Hd. by rewrite Hc in Hd.
           ++ rewrite app_cons in E. injection E as <- E.
              simpl in Hg. apply andb_true_iff in Hg as [_ Hg].
              assert (match_here (g' +:+ d') = Some (g, d)) as Em2.
              { apply IH. rewrite E. done. }
              assert (match_here (g' +:+ d') = Some (g', d')) as Em3.
              { apply IH. done. }
              congruence.
      * split; [done|]. intros (E & Hg & Hd & Hne). destruct g as [|x g].
        -- rewrite app_empty_l in E. subst d. simpl in Hd. by rewrite Hc in Hd.
        -- rewrite app_cons in E. injection E as <- E.
           simpl in Hg. apply andb_true_iff in Hg as [_ Hg].
           assert (match_here s = Some (g, d)) as Em2 by (apply IH; done).
           congruence.
Qed.

Lemma regex_match_unfold (o : string) :
  regex_match o
  = match match_here o with
    | Some r => Some r
    | None => match o with "" => None | String _ o' => regex_match o' end
    end.
Proof. destruct o; reflexivity. Qed.

(** No match starts inside a prefix that ends in a digit and is followed
    by a non-digit. *)
Lemma match_here_blocked (p g d : string) :
  ends_in_digit p = true → g ≠ "" → all_chars non_digit g = true →
  match_here (p +:+ g +:+ d) = None.
Proof.
  intros Hp Hg Hnd. induction p as [|c p IH]; [done|].
  rewrite app_cons, match_here_cons, digits_to_end_spec.
  assert (all_chars is_digit (String c (p +:+ g +:+ d)) = false) as ->.
  { rewrite <- app_cons, !all_chars_app, (all_chars_false_head g) by done.
    by rewrite andb_false_l, andb_false_r. }
  simpl. destruct (is_digit c) eqn:Hc; [done|].
  destruct p as [|c' p].
  - simpl in Hp. congruence.
  - rewrite IH; [done|]. exact Hp.
Qed.

(** The search from the left finds the longest run of digits that ends the
    token ([d]) and the longest run of non-digits just before it ([g]). *)
Lemma regex_match_spec (o g d : string) :
  regex_match o = Some (g, d)
  ↔ ∃ p, o = p +:+ g +:+ d
         ∧ all_chars non_digit g = true
         ∧ all_chars is_digit d = true ∧ d ≠ ""
         ∧ (p = "" ∨ (g ≠ "" ∧ ends_in_digit p = true)).
Proof.
  split.
  - induction o as [|c o IH]; [done|].
    rewrite regex_match_unfold. case_eq (match_here (String c o)).
    + intros [g' d'] Em [= -> ->]. apply match_here_spec in Em as (E & ? & ? & ?).
      exists "". rewrite app_empty_l. do 4 (split; [done|]). by left.
    + intros Em Hr. apply IH in Hr as (p & E & Hg & Hd & Hne & Hp).
      exists (String c p). rewrite app_cons, <- E. do 4 (split; [done|]). right.
      destruct Hp as [-> | [Hgne Hp]].
      * rewrite app_empty_l in E. subst o.
        destruct (is_digit c) eqn:Hc.
        -- split; [|simpl; done]. intros ->.
           assert (match_here (String c ("" +:+ d)) = Some ("", String c d)) as Em2.
           { apply match_here_spec. rewrite !app_empty_l. simpl. by rewrite Hc, Hd. }
           congruence.
        -- exfalso.
           assert (match_here (String c (g +:+ d)) = Some (String c g, d)) as Em2.
           { apply match_here_spec. rewrite app_cons. simpl. unfold non_digit at 1.
             by rewrite Hc. }
           congruence.
      * split; [done|]. simpl. by destruct p.
  - intros (p & -> & Hg & Hd & Hne & Hp). induction p as [|c p IH].
    + rewrite app_empty_l, regex_match_unfold.
      by rewrite (proj2 (match_here_spec (g +:+ d) g d)).
    + destruct Hp as [|[Hgne Hp]]; [done|].
      rewrite regex_match_unfold, match_here_blocked by done.
      rewrite app_cons. apply IH. destruct p; [by left|]. right. done.
Qed.

Lemma regex_match_is_Some (o : string) :
  is_Some (regex_match o) ↔ ends_in_digit o = true.
Proof.
  split.
  - intros [[g d] (p & -> & _ & Hd & Hne & _)%regex_match_spec].
    rewrite !ends_in_digit_app; [by apply ends_in_digit_all|done|].
    destruct g; [done|discriminate].
  - induction o as [|c o IH]; [done|]. intros He.
    rewrite regex_match_unfold. destruct (match_here (String c o)) eqn:Em; [done|].
    destruct o as [|c' o].
    + simpl in He. rewrite match_here_cons, digits_to_end_spec in Em. simpl in Em.
      rewrite He in Em. done.
    + apply IH. exact He.
Qed.

Lemma regex_match_None (o : string) :
  regex_match o = None ↔ ends_in_digit o = false.
Proof.
  rewrite eq_None_not_Some, regex_match_is_Some. by destruct (ends_in_digit o).
Qed.

(** ** Occurrence spec parser *)

Lemma existsb_eqb_spec (x : string) (l : list string) :
  existsb (String.eqb x) l = bool_decide (x ∈ l).
Proof.
  induction l as [|a l IH]; cbn [existsb].
  - symmetry. apply bool_decide_eq_false_2, not_elem_of_nil.
  - rewrite IH. destruct (String.eqb_spec x a) as [->|Hne]; cbn [orb].
    + symmetry. apply bool_decide_eq_true_2, list_elem_of_here.
    + apply bool_decide_ext. rewrite elem_of_cons. tauto.
Qed.

(** The three outcomes of a token.  The test on [r[2]] never fires. *)
Lemma tokenOccurrence_cases id_of (S : list ref) (module o : string) :
  tokenOccurrence id_of S module o
  = if bool_decide (module ∈ map id_of S) then
      match regex_match o with
      | Some (g, d) => MkEff [] (Some [(module, g, parseInt d)])
      | None => MkEff (if String.eqb o "" then [] else [o]) (Some [])
      end
    else MkEff [] (Some []).
Proof.
  unfold tokenOccurrence. rewrite existsb_eqb_spec.
  destruct (bool_decide (module ∈ map id_of S)); simpl.
  - destruct (String.eqb_spec o "") as [->|Hne]; simpl; [done|].
    destruct (regex_match o) as [[g d]|] eqn:Er; [|done].
    apply regex_match_spec in Er as (p & _ & _ & _ & Hd & _).
    destruct d; [done|]. reflexivity.
  - by rewrite orb_true_r.
Qed.

Lemma flatMap_total {E A B} (l : list A) (f : A → Eff E (list B)) :
  (∀ x, is_Some (result (f x))) →
  flatMap l f
  = MkEff (flat_map (λ x, writes (f x)) l)
          (Some (flat_map (λ x, default [] (result (f x))) l)).
Proof.
  intros Hf. induction l as [|a l IH]; [done|].
  simpl. rewrite IH. destruct (Hf a) as [ys Hys].
  unfold mbind, eff_mbind, eff_bind, mret, eff_ret. rewrite Hys. simpl.
  by rewrite app_nil_r.
Qed.

Lemma tokenOccurrence_total id_of (S : list ref) (module o : string) :
  is_Some (result (tokenOccurrence id_of S module o)).
Proof.
  rewrite tokenOccurrence_cases.
  destruct (bool_decide _); [|done]. by destruct (regex_match o) as [[]|].
Qed.

(** The parser never throws; it concatenates what the tokens give and log,
    pair after pair and token after token. *)
Lemma getSpecOccurrences_flat id_of (S : list ref) (m : list (string * string)) :
  getSpecOccurrences id_of S m
  = MkEff
      (flat_map (λ '(module, occurrences),
                   flat_map (λ t, writes (tokenOccurrence id_of S module t))
                            (split "," occurrences)) m)
      (Some (flat_map (λ '(module, occurrences),
                         flat_map (λ t, default [] (result (tokenOccurrence id_of S module t)))
                                  (split "," occurrences)) m)).
Proof.
  unfold getSpecOccurrences.
  assert (∀ module occurrences,
    flatMap (split "," occurrences) (tokenOccurrence id_of S module)
    = MkEff (flat_map (λ t, writes (tokenOccurrence id_of S module t)) (split "," occurrences))
            (Some (flat_map (λ t, default [] (result (tokenOccurrence id_of S module t)))
                            (split "," occurrences)))) as Hin.
  { intros. apply flatMap_total. intros. apply tokenOccurrence_total. }
  rewrite flatMap_total.
  - f_equal; [|f_equal]; apply flat_map_ext; intros [module occurrences]; by rewrite Hin.
  - intros [module occurrences]. by rewrite Hin.
Qed.

Lemma split_nonempty (sep : ascii) (s : string) : split sep s ≠ [].
Proof.
  induction s as [|c s IH]; simpl; [done|].
  destruct (Ascii.eqb c sep); [done|]. by destruct (split sep s).
Qed.

(** The tokens of [a,b] are those of [a] followed by those of [b]. *)
Lemma split_app_sep (sep : ascii) (a b : string) :
  split sep (a +:+ String sep b) = split sep a ++ split sep b.
Proof.
  induction a as [|c a IH].
  - rewrite app_empty_l. simpl. by rewrite Ascii.eqb_refl.
  - rewrite app_cons. simpl. rewrite IH.
    destruct (Ascii.eqb c sep); [done|].
    pose proof (split_nonempty sep a). by destruct (split sep a).
Qed.

(** A string without the separator is one token. *)
Lemma split_no_sep (sep : ascii) (s : string) :
  all_chars (λ c, negb (Ascii.eqb c sep)) s = true → split sep s = [s].
Proof.
  induction s as [|c s IH]; simpl; [done|].
  intros [Hc Hs]%andb_true_iff. apply negb_true_iff in Hc. rewrite Hc.
  by rewrite IH.
Qed.

(** C3, the claim as stated fails: a token that is not of the shape
    non-digits then digits, here with a digit in the middle, is parsed all
    the same, from its last run of non-digits on; and the empty token, which
    does not match, is dropped without a diagnostic. *)
Lemma token_with_inner_digit_is_parsed :
  non_digits_then_digits "A1B2" = false
  ∧ getSpecOccurrences (λ _, "COMP1130") [1%positive] [("COMP1130", "A1B2")]
    = MkEff [] (Some [("COMP1130", "B", 2%N)])
  ∧ non_digits_then_digits "" = false
  ∧ getSpecOccurrences (λ _, "COMP1130") [1%positive] [("COMP1130", "")]
    = MkEff [] (Some []).
Proof. vm_compute. auto. Qed.

Lemma map_flat_map {A B C} (g : B → C) (f : A → list B) (l : list A) :
  map g (flat_map f l) = flat_map (λ x, map g (f x)) l.
Proof. induction l as [|a l IH]; [done|]. simpl. by rewrite map_app, IH. Qed.

(** C3, amended.  The parser returns, without throwing, the triples of the
    tokens in input order, pair after pair and token after token, and keeps
    duplicates.  A token gives exactly one triple when it ends in a decimal
    digit and its module is selected, and no triple otherwise, whatever the
    other tokens and pairs are.  The triple holds the module, the longest run
    of non-digits just before the digits that end the token, and, when it is
    below 2^53, the value of those digits.  A token is logged when it is
    non-empty, its module is selected and it does not end in a digit. *)
Theorem parser_tokens (id_of : ref → string) (S : list ref) :
  (∀ m, ∃ out,
     result (getSpecOccurrences id_of S m) = Some out
     ∧ writes (getSpecOccurrences id_of S m)
       = flat_map (λ '(module, occurrences),
                     flat_map (λ t, writes (tokenOccurrence id_of S module t))
                              (split "," occurrences)) m
     ∧ map fst out
       = flat_map (λ '(module, occurrences),
                     flat_map (λ t, map fst (default [] (result (tokenOccurrence id_of S module t))))
                              (split "," occurrences)) m
     ∧ ((∀ module occurrences t,
           (module, occurrences) ∈ m → t ∈ split "," occurrences → safe_token t = true) →
        out = flat_map (λ '(module, occurrences),
                          flat_map (λ t, default [] (result (tokenOccurrence id_of S module t)))
                                   (split "," occurrences)) m))
  ∧ (∀ a b, split "," (a +:+ "," +:+ b) = split "," a ++ split "," b)
  ∧ (∀ t, all_chars (λ c, negb (Ascii.eqb c ",")) t = true → split "," t = [t])
  ∧ (∀ module t,
       ((∃ tr, result (tokenOccurrence id_of S module t) = Some [tr])
        ↔ ends_in_digit t = true ∧ module ∈ map id_of S)
       ∧ (¬ (ends_in_digit t = true ∧ module ∈ map id_of S) →
          result (tokenOccurrence id_of S module t) = Some [])
       ∧ (∀ tr, result (tokenOccurrence id_of S module t) = Some [tr] →
            ∃ p g d, tr.1 = (module, g)
                     ∧ t = p +:+ g +:+ d
                     ∧ all_chars non_digit g = true
                     ∧ all_chars is_digit d = true ∧ d ≠ ""
                     ∧ (p = "" ∨ (g ≠ "" ∧ ends_in_digit p = true))
                     ∧ (safe_integer (parseInt d) = true → tr.2 = parseInt d))
       ∧ writes (tokenOccurrence id_of S module t)
         = if bool_decide (module ∈ map id_of S)
              && negb (String.eqb t "") && negb (ends_in_digit t)
           then [t] else []).
Proof.
  split.
  { intros m. rewrite getSpecOccurrences_flat. simpl. eexists.
    split; [reflexivity|]. split; [reflexivity|]. split; [|done].
    rewrite map_flat_map. apply flat_map_ext. intros [module occurrences].
    apply map_flat_map. }
  split; [intros; apply split_app_sep|].
  split; [apply split_no_sep|].
  intros module t. rewrite tokenOccurrence_cases.
  destruct (bool_decide (module ∈ map id_of S)) eqn:Hsel.
  - apply bool_decide_eq_true_1 in Hsel.
    destruct (regex_match t) as [[g d]|] eqn:Er.
    + assert (ends_in_digit t = true) as He.
      { apply regex_match_is_Some. by rewrite Er. }
      rewrite He. simpl. split; [|split; [|split]].
      * split; [done|]. intros _. by eexists.
      * intros Hn. by destruct Hn.
      * intros tr [= <-]. apply regex_match_spec in Er as (p & ? & ? & ? & ? & ?).
        exists p, g, d. done.
      * by rewrite andb_false_r.
    + assert (ends_in_digit t = false) as He by (by apply regex_match_None).
      rewrite He. simpl. split; [|split; [|split]].
      * split; [by intros [tr ?]|]. by intros [? _].
      * done.
      * done.
      * rewrite andb_true_r. by destruct (String.eqb t "").
  - apply bool_decide_eq_false_1 in Hsel. simpl. split; [|split; [|split]].
    + split; [by intros [tr ?]|]. by intros [_ ?].
    + done.
    + done.
    + done.
Qed.

Lemma parser_tokens_witness :
  (ends_in_digit "ComA1" = true ∧ "COMP1130" ∈ map (λ _ : ref, "COMP1130") [1%positive])
  ∧ (∃ tr, result (tokenOccurrence (λ _, "COMP1130") [1%positive] "COMP1130" "ComA1")
           = Some [tr]
           ∧ (safe_integer (parseInt "1") = true → tr.2 = 1%N)).
Proof.
  assert (ends_in_digit "ComA1" = true
          ∧ "COMP1130" ∈ map (λ _ : ref, "COMP1130") [1%positive]) as H.
  { split; [reflexivity|]. simpl. apply list_elem_of_here. }
  split; [exact H|].
  destruct (parser_tokens (λ _, "COMP1130") [1%positive]) as (_ & _ & _ & Ht).
  destruct (Ht "COMP1130" "ComA1") as (Hiff & _ & Htr & _).
  destruct (proj2 Hiff H) as [tr Hr]. exists tr. split; [exact Hr|].
  intros _. destruct (Htr tr Hr) as (p & g & d & _ & _ & _ & _ & _ & _ & Hn).
  vm_compute in Hr. injection Hr as <-. reflexivity.
Defined.

(** C7, the claim as stated fails: a token made of digits only gives a
    triple, whose group id is empty. *)
Lemma digits_only_token_is_parsed :
  getSpecOccurrences (λ _, "COMP1130") [1%positive] [("COMP1130", "12")]
  = MkEff [] (Some [("COMP1130", "", 12%N)])
  ∧ String.length "" = 0.
Proof. vm_compute. auto. Qed.

(** C7, amended.  The group id of every triple the parser returns holds no
    decimal digit, and may be empty: a non-empty token of a selected module
    that is made of digits only gives a triple with the empty group id, whose
    number is the value of the token when that value is below 2^53. *)
Theorem group_id_has_no_digit (id_of : ref → string) (S : list ref)
    (m : list (string * string)) :
  ∃ out,
    result (getSpecOccurrences id_of S m) = Some out
    ∧ (∀ module g n, (module, g, n) ∈ out → all_chars non_digit g = true)
    ∧ (∀ module occurrences t,
         (module, occurrences) ∈ m → t ∈ split "," occurrences →
         module ∈ map id_of S → t ≠ "" → all_chars is_digit t = true →
         (∃ n, (module, "", n) ∈ out)
         ∧ (safe_integer (parseInt t) = true → (module, "", parseInt t) ∈ out)).
Proof.
  rewrite getSpecOccurrences_flat. eexists. split; [reflexivity|]. split.
  - intros module g n Hin.
    apply list_elem_of_In, in_flat_map in Hin as ([mo occ] & _ & Hin).
    apply in_flat_map in Hin as (t & _ & Hin).
    rewrite tokenOccurrence_cases in Hin.
    destruct (bool_decide (mo ∈ map id_of S)); [|by destruct Hin].
    destruct (regex_match t) as [[g' d']|] eqn:Er; [|by destruct Hin].
    simpl in Hin. destruct Hin as [[= <- <- <-]|[]].
    by apply regex_match_spec in Er as (p & _ & Hg & _).
  - intros module occurrences t Hm Ht Hsel Hne Hd.
    assert ((module, "", parseInt t)
            ∈ flat_map (λ '(module, occurrences),
                 flat_map (λ t, default [] (result (tokenOccurrence id_of S module t)))
                          (split "," occurrences)) m) as Hin.
    { apply list_elem_of_In, in_flat_map. exists (module, occurrences).
      split; [by apply list_elem_of_In|]. apply in_flat_map. exists t.
      split; [by apply list_elem_of_In|].
      rewrite tokenOccurrence_cases, bool_decide_eq_true_2 by done.
      rewrite (proj2 (regex_match_spec t "" t)); [by left|].
      exists "". rewrite !app_empty_l. do 4 (split; [done|]). by left. }
    split; [by eexists|done].
Qed.

Lemma group_id_has_no_digit_witness :
  ∃ out,
    result (getSpecOccurrences (λ _, "COMP1130") [1%positive] [("COMP1130", "ComA1,12")])
    = Some out
    ∧ ("COMP1130", "", 12%N) ∈ out.
Proof.
  destruct (group_id_has_no_digit (λ _, "COMP1130") [1%positive] [("COMP1130", "ComA1,12")])
    as (out & Hr & _ & H).
  exists out. split; [exact Hr|].
  refine (proj2 (H "COMP1130" "ComA1,12" "12" _ _ _ _ _) _).
  - apply list_elem_of_here.
  - simpl. apply list_elem_of_further, list_elem_of_here.
  - simpl. apply list_elem_of_here.
  - discriminate.
  - reflexivity.
  - reflexivity.
Defined.

(** ** Module normalizer *)

Lemma tag_here_None_app (x y : string) :
  (3 ≤ String.length x)%nat → tag_here x = None → tag_here (x +:+ y) = None.
Proof.
  destruct x as [|u [|a [|b x]]]; simpl; try lia. intros _.
  by destruct (Ascii.eqb u "_" && is_upper a && is_1_to_9 b).
Qed.

Lemma has_tag_unfold (s : string) :
  has_tag s
  = match tag_here s with
    | Some _ => true
    | None => match s with "" => false | String _ s' => has_tag s' end
    end.
Proof. destruct s; reflexivity. Qed.

Lemma replace_tag_unfold (s : string) :
  replace_tag s
  = match tag_here s with
    | Some rest => rest
    | None => match s with "" => "" | String c s' => String c (replace_tag s') end
    end.
Proof. destruct s; reflexivity. Qed.

(** A title in which the pattern does not occur is unchanged. *)
Lemma replace_tag_absent (title : string) :
  has_tag title = false → replace_tag title = title.
Proof.
  induction title as [|c s IH]; [done|].
  rewrite has_tag_unfold, replace_tag_unfold.
  destruct (tag_here (String c s)); [done|]. intros H. by rewrite IH.
Qed.

Lemma string_length_app (a b : string) :
  String.length (a +:+ b) = String.length a + String.length b.
Proof. induction a as [|x a IH]; [done|]. rewrite app_cons. simpl. by rewrite IH. Qed.

(** The occurrence that is removed is the first from the left. *)
Lemma replace_tag_first (p rest : string) (a b : ascii) :
  is_upper a = true → is_1_to_9 b = true →
  has_tag (p +:+ String "_" (String a "")) = false →
  replace_tag (p +:+ String "_" (String a (String b rest))) = p +:+ rest.
Proof.
  intros Ha Hb. induction p as [|c p IH]; intros Hfree.
  - rewrite !app_empty_l, replace_tag_unfold. simpl. by rewrite Ha, Hb.
  - rewrite has_tag_unfold in Hfree. rewrite !app_cons in *.
    destruct (tag_here (String c (p +:+ String "_" (String a "")))) eqn:Et; [done|].
    rewrite replace_tag_unfold.
    assert (tag_here (String c (p +:+ String "_" (String a (String b rest)))) = None) as ->.
    { change (String "_" (String a (String b rest)))
        with (String "_" (String a "") +:+ String b rest).
      rewrite <- string_app_assoc, <- app_cons. apply tag_here_None_app; [|done].
      simpl. rewrite string_length_app. simpl. lia. }
    by rewrite IH.
Qed.

(** C5, the claim as stated fails: the tag that is removed need not end the
    title and its digit is never 0, and the fields [id] and [classes] are not
    carried over. *)
Lemma processModule_drops_id_and_keeps_trailing_tag :
  let raw : gmap string (field unit) :=
    <["title" := Text "COMP1130_S1 Intro_A0"]>
      (<["id" := Text "COMP1130_S1"]> (<["link" := Text "l"]> ∅)) in
  ∃ r, processModule raw = Some r
       ∧ r !! "title" = Some (Text "COMP1130 Intro_A0")
       ∧ strip_trailing_tag "COMP1130_S1 Intro_A0" = "COMP1130_S1 Intro"
       ∧ raw !! "id" = Some (Text "COMP1130_S1")
       ∧ r !! "id" = None.
Proof.
  eexists. split; [reflexivity|]. vm_compute. auto.
Qed.

(** C5, amended.  For an entry whose title is a string, the record's title
    is the raw title without the first occurrence, from the left and wherever
    it is, of an underscore, a letter [A-Z] and a digit [1-9], and is
    the raw title when there is none; the fields [classes] and [id] are left
    out; every other field of the entry is in the record, unchanged, and the
    record has no further field. *)
Theorem processModule_spec {V} (raw : gmap string (field V)) (title : string) :
  raw !! "title" = Some (Text title) →
  ∃ r, processModule raw = Some r
       ∧ r !! "title" = Some (Text (replace_tag title))
       ∧ r !! "classes" = None
       ∧ r !! "id" = None
       ∧ (∀ k, k ≠ "title" → k ≠ "classes" → k ≠ "id" → r !! k = raw !! k)
       ∧ (has_tag title = false → replace_tag title = title)
       ∧ (∀ p a b rest,
            title = p +:+ String "_" (String a (String b rest)) →
            is_upper a = true → is_1_to_9 b = true →
            has_tag (p +:+ String "_" (String a "")) = false →
            replace_tag title = p +:+ rest).
Proof.
  intros Ht. unfold processModule. rewrite Ht. eexists. split; [reflexivity|].
  split; [apply lookup_insert_eq|].
  split; [by rewrite lookup_insert_ne, 2!lookup_delete_ne, lookup_delete_eq|].
  split; [by rewrite lookup_insert_ne, lookup_delete_ne, lookup_delete_eq|].
  split; [intros k ???; by rewrite lookup_insert_ne, !lookup_delete_ne|].
  split; [apply replace_tag_absent|].
  intros p a b rest -> Ha Hb Hfree. by apply replace_tag_first.
Qed.

Lemma processModule_spec_witness :
  ∃ r, processModule (<["title" := Text "COMP1130_S1 Intro"]>
                        (<["dates" := Other 7]> (∅ : gmap string (field nat))))
       = Some r
       ∧ r !! "title" = Some (Text (replace_tag "COMP1130_S1 Intro"))
       ∧ r !! "dates" = Some (Other 7).
Proof.
  destruct (processModule_spec
              (<["title" := Text "COMP1130_S1 Intro"]>
                 (<["dates" := Other 7]> (∅ : gmap string (field nat))))
              "COMP1130_S1 Intro") as (r & Hr & Ht & _ & _ & Hk & _).
  - reflexivity.
  - exists r. split; [exact Hr|]. split; [exact Ht|].
    rewrite Hk; [reflexivity|discriminate..].
Defined.

(** The key of the catalog is what precedes the first underscore. *)
Lemma module_code_prefix (a b : string) :
  all_chars (λ c, negb (Ascii.eqb c "_")) a = true →
  module_code (a +:+ String "_" b) = a ∧ module_code a = a.
Proof.
  intros Ha. unfold module_code.
  by rewrite split_app_sep, split_no_sep.
Qed.

Section Catalog.
Context {V : Type}.
Implicit Types (data : list (string * gmap string (field V))).
Implicit Types (acc cat : gmap string (gmap string (field V))).

Lemma fold_thrown data : foldl addModule None data = None.
Proof. induction data as [|[k e] data IH]; [done|]. simpl. exact IH. Qed.



End Catalog.



(** * Further properties *)

(** ** Runs of the hidden-events reducer *)

(** What one accepted action does to the stored keys and to the URL. *)
Lemma dispatch_hidden_step (s s' : list EventKey) (q q' : gmap string string)
    (a : Action EventKey) :
  dispatch changeHidden (s, q) a = Some (s', q') →
  (type a = "reset" ∧ s' = [] ∧ q' = unsetParam "hide" q)
  ∨ (type a = "hide" ∧ s' = s ++ [values a]
     ∧ q' = if (0 <? String.length (hideParam s))%nat
            then <["hide" := hideParam s]> q
            else unsetParam "hide" q).
Proof.
  unfold dispatch, changeHidden. simpl.
  destruct (decide (type a = "reset")) as [Hr|Hr]; simpl.
  - intros [= <- <-]. by left.
  - destruct (decide (type a = "hide")) as [Hh|Hh]; simpl; [|done].
    destruct (hideParam s) as [|c h] eqn:Eh; simpl; intros [= <- <-]; right; done.
Qed.

(** After every action it accepts, whatever the URL before it and whatever
    the stored keys, their numbers being below 2^53, the hidden-events
    reducer leaves in [hide] the join of the stored keys but the last one
    ([hide] is unset when that join is empty), and leaves every other
    parameter as it was. *)
Theorem hidden_url_lags_and_frame (s s' : list EventKey) (q q' : gmap string string)
    (a : Action EventKey) :
  forallb safe_key s = true →
  dispatch changeHidden (s, q) a = Some (s', q') →
  q' !! "hide"
    = (if String.eqb (hideParam (removelast s')) "" then None
       else Some (hideParam (removelast s')))
  ∧ ∀ name, name ≠ "hide" → q' !! name = q !! name.
Proof.
  intros _ [(_ & -> & ->)|(_ & -> & ->)]%dispatch_hidden_step.
  - split; [apply lookup_delete_eq|]. intros name Hn. by apply lookup_delete_ne.
  - rewrite removelast_last. destruct (hideParam s) as [|c h]; simpl.
    + split; [apply lookup_delete_eq|]. intros name Hn. by apply lookup_delete_ne.
    + split; [apply lookup_insert_eq|]. intros name Hn. by apply lookup_insert_ne.
Qed.

Lemma hidden_url_lags_and_frame_witness :
  ∃ q', dispatch changeHidden ([[Str "COMP1130"; Str "ComA"; Num 1]], ∅)
          (MkAction "hide" [Str "COMP1130"; Str "ComB"; Num 2])
        = Some ([[Str "COMP1130"; Str "ComA"; Num 1]; [Str "COMP1130"; Str "ComB"; Num 2]], q')
        ∧ q' !! "hide" = Some "COMP1130_ComA_1".
Proof.
  eexists. split; [reflexivity|].
  exact (proj1 (hidden_url_lags_and_frame
                  [[Str "COMP1130"; Str "ComA"; Num 1]]
                  [[Str "COMP1130"; Str "ComA"; Num 1]; [Str "COMP1130"; Str "ComB"; Num 2]]
                  ∅ _ (MkAction "hide" [Str "COMP1130"; Str "ComB"; Num 2]) eq_refl eq_refl)).
Defined.

(** ** Runs of the occurrence reducer *)

Lemma dispatch_occurrence_step (s s' : list Occurrence) (q q' : gmap string string)
    (a : Action Occurrence) :
  dispatch changeOccurrences (s, q) a = Some (s', q') →
  (type a = "select" ∧ s' = s ++ [values a]
   ∧ q' = <[(values a).1.1 := (values a).1.2 +:+ pretty (values a).2]> q)
  ∨ (type a = "reset"
     ∧ s' = List.filter (λ t, negb (bool_decide (t = values a))) s
     ∧ q' = unsetParam (values a).1.1 q).
Proof.
  destruct a as [ty [[m g] n]]. unfold dispatch. simpl.
  destruct (decide (ty = "select")) as [->|Hs].
  - rewrite changeOccurrences_select. simpl. intros [= <- <-]. left.
    split; [done|]. split; [done|]. unfold run. simpl. unfold setParam.
    destruct (decide (g +:+ pretty n = "")) as [E|_]; [|done].
    exfalso. by apply (append_nonempty_r g (pretty n) (pretty_N_nonempty n)).
  - destruct (decide (ty = "reset")) as [->|Hr].
    + rewrite changeOccurrences_reset. simpl. intros [= <- <-]. by right.
    + unfold changeOccurrences. simpl. rewrite !decide_False by done. done.
Qed.

Lemma dispatchAll_snoc {S V} (reducer : S → Action V → Eff cmd S)
    (sq : S * gmap string string) (l : list (Action V)) (a : Action V) :
  dispatchAll reducer sq (l ++ [a])
  = dispatchAll reducer sq l ≫= λ sq', dispatch reducer sq' a.
Proof. unfold dispatchAll. by rewrite foldl_app. Qed.

(** A run of [select]s stores every triple, in order, after the ones that
    were stored. *)
Lemma select_run_stored (l : list (Action Occurrence))
    (s s' : list Occurrence) (q q' : gmap string string) :
  dispatchAll changeOccurrences (s, q) l = Some (s', q') →
  (∀ a, a ∈ l → type a = "select") →
  s' = s ++ map values l.
Proof.
  revert s' q'. induction l as [|a l IH] using rev_ind; intros s' q'.
  - unfold dispatchAll. simpl. intros [= <- <-] _. by rewrite app_nil_r.
  - rewrite dispatchAll_snoc.
    destruct (dispatchAll changeOccurrences (s, q) l) as [[s1 q1]|] eqn:El; [|done].
    simpl. intros Hd Hsel.
    rewrite (IH s1 q1 eq_refl) in Hd.
    2:{ intros b Hb. apply Hsel, elem_of_app. by left. }
    apply dispatch_occurrence_step in Hd as [(_ & -> & _)|(Ht & _)].
    + by rewrite map_app, app_assoc.
    + rewrite (Hsel a) in Ht; [done|]. apply elem_of_app. right. apply list_elem_of_here.
Qed.

(** After a run of actions that the occurrence reducer accepts, the numbers
    selected being below 2^53, the parameter of a module is decided by the
    last action of the run on that module alone: the group id followed by
    the number when it is a [select], unset when it is a [reset], and as
    before the run when there is none.  The stored sequence keeps more: after
    a run of [select]s it is the sequence before the run followed by every
    selected triple, in order. *)
Theorem occurrence_url_last_action (l : list (Action Occurrence))
    (s s' : list Occurrence) (q q' : gmap string string) (m : string) :
  (∀ a, a ∈ l → type a = "select" → safe_integer (values a).2 = true) →
  dispatchAll changeOccurrences (s, q) l = Some (s', q') →
  q' !! m
  = match last (filter (λ a, (values a).1.1 = m) l) with
    | None => q !! m
    | Some a =>
        if decide (type a = "select")
        then Some ((values a).1.2 +:+ pretty (values a).2)
        else None
    end
  ∧ ((∀ a, a ∈ l → type a = "select") → s' = s ++ map values l).
Proof.
  intros _ Hrun. split; [|by apply (select_run_stored l s s' q q')].
  revert s' q' Hrun. induction l as [|a l IH] using rev_ind; intros s' q'.
  - unfold dispatchAll. simpl. by intros [= <- <-].
  - rewrite dispatchAll_snoc.
    destruct (dispatchAll changeOccurrences (s, q) l) as [[s1 q1]|] eqn:El; [|done].
    simpl. intros Hd. specialize (IH s1 q1 eq_refl).
    rewrite filter_app.
    apply dispatch_occurrence_step in Hd as [(Ht & _ & ->)|(Ht & _ & ->)].
    + destruct (decide ((values a).1.1 = m)) as [E|Hne].
      * rewrite filter_cons_True, filter_nil, last_snoc, decide_True by done.
        rewrite E. apply lookup_insert_eq.
      * rewrite filter_cons_False, filter_nil, app_nil_r by done.
        rewrite lookup_insert_ne by done. exact IH.
    + destruct (decide ((values a).1.1 = m)) as [E|Hne].
      * rewrite filter_cons_True, filter_nil, last_snoc by done.
        rewrite decide_False by (rewrite Ht; discriminate).
        rewrite E. apply lookup_delete_eq.
      * rewrite filter_cons_False, filter_nil, app_nil_r by done.
        unfold unsetParam. rewrite lookup_delete_ne by done. exact IH.
Qed.

Lemma occurrence_url_last_action_witness :
  ∃ s' q',
    dispatchAll changeOccurrences ([], ∅)
      [MkAction "select" ("COMP1130", "ComA", 1%N);
       MkAction "select" ("COMP1130", "ComB", 2%N)] = Some (s', q')
    ∧ s' = [("COMP1130", "ComA", 1%N); ("COMP1130", "ComB", 2%N)]
    ∧ q' !! "COMP1130" = Some "ComB2".
Proof.
  destruct (dispatchAll changeOccurrences ([], ∅)
              [MkAction "select" ("COMP1130", "ComA", 1%N);
               MkAction "select" ("COMP1130", "ComB", 2%N)]) as [[s' q']|] eqn:Hd.
  - exists s', q'. split; [reflexivity|].
    assert (∀ a : Action Occurrence,
              a ∈ [MkAction "select" ("COMP1130", "ComA", 1%N);
                   MkAction "select" ("COMP1130", "ComB", 2%N)] →
              type a = "select" ∧ safe_integer (values a).2 = true) as Hl.
    { intros a Ha. repeat (apply elem_of_cons in Ha as [->|Ha]; [by split|]).
      by apply elem_of_nil in Ha. }
    destruct (occurrence_url_last_action _ _ _ _ _ "COMP1130"
                (λ a Ha _, proj2 (Hl a Ha)) Hd) as [Hq Hs].
    split; [|exact Hq]. apply Hs. intros a Ha. exact (proj1 (Hl a Ha)).
  - vm_compute in Hd. discriminate.
Defined.

(** ** The URL written by [select], read back by the parser *)

Lemma pretty_N_char_digit (d : N) :
  (d < 10)%N → is_digit (pretty_N_char d) = true ∧ digit_value (pretty_N_char d) = d.
Proof.
  intros Hd.
  assert (d = 0 ∨ d = 1 ∨ d = 2 ∨ d = 3 ∨ d = 4 ∨ d = 5 ∨ d = 6 ∨ d = 7 ∨ d = 8 ∨ d = 9)%N
    as Hcases by lia.
  repeat (destruct Hcases as [->|Hcases]; [by vm_compute|]). subst d. by vm_compute.
Qed.

Lemma parseInt_from_digit (acc : N) (c : ascii) (s : string) :
  is_digit c = true →
  parseInt_from acc (String c s) = parseInt_from (10 * acc + digit_value c) s.
Proof. intros Hc. simpl. by rewrite Hc. Qed.

(** Reading the digits that [pretty_N_go] puts before [s] multiplies what
    was read so far by a power of ten and adds the number printed. *)
Lemma parseInt_from_pretty_go (x : N) :
  ∃ k : N, ∀ s acc,
    parseInt_from acc (pretty_N_go x s) = parseInt_from (acc * k + x) s.
Proof.
  induction (N.lt_wf_0 x) as [x _ IH].
  destruct (decide (0 < x)%N) as [Hx|Hx].
  - destruct (IH (x `div` 10)%N) as [k Hk]; [apply N.div_lt; lia|].
    exists (10 * k)%N. intros s acc.
    rewrite pretty_N_go_step by done. rewrite Hk.
    destruct (pretty_N_char_digit (x `mod` 10)%N) as [Hd Hv];
      [apply N.mod_lt; lia|].
    rewrite parseInt_from_digit by done. rewrite Hv. f_equal.
    pose proof (N.div_mod x 10). lia.
  - assert (x = 0%N) as -> by lia. exists 1%N. intros s acc.
    rewrite pretty_N_go_0. f_equal. lia.
Qed.

Lemma parseInt_pretty (n : N) : parseInt (pretty n) = n.
Proof.
  unfold parseInt, pretty, pretty_N. case_decide as Hn; [by subst|].
  destruct (parseInt_from_pretty_go n) as [k Hk]. rewrite Hk. simpl. lia.
Qed.

Lemma pretty_N_go_digits (x : N) (s : string) :
  all_chars is_digit s = true → all_chars is_digit (pretty_N_go x s) = true.
Proof.
  revert s. induction (N.lt_wf_0 x) as [x _ IH]. intros s Hs.
  destruct (decide (0 < x)%N) as [Hx|Hx].
  - rewrite pretty_N_go_step by done. apply IH; [apply N.div_lt; lia|].
    simpl. rewrite Hs.
    destruct (pretty_N_char_digit (x `mod` 10)%N) as [-> _]; [apply N.mod_lt; lia|done].
  - assert (x = 0%N) as -> by lia. by rewrite pretty_N_go_0.
Qed.

Lemma pretty_N_digits (n : N) : all_chars is_digit (pretty n) = true.
Proof.
  unfold pretty, pretty_N. case_decide; [done|]. by apply pretty_N_go_digits.
Qed.

Lemma all_chars_impl (p p' : ascii → bool) (s : string) :
  (∀ c, p c = true → p' c = true) → all_chars p s = true → all_chars p' s = true.
Proof.
  intros Hpp. induction s as [|c s IH]; [done|]. simpl.
  intros [Hc Hs]%andb_true_iff. by rewrite (Hpp c Hc), IH.
Qed.

Lemma digit_is_no_comma (c : ascii) :
  is_digit c = true → negb (Ascii.eqb c ",") = true.
Proof.
  intros Hc. destruct (Ascii.eqb_spec c ",") as [->|]; [|done]. by vm_compute in Hc.
Qed.

(** A token made of a digit-free group id and a printed number is parsed
    back into the two. *)
Lemma regex_match_printed (g : string) (n : N) :
  all_chars non_digit g = true →
  regex_match (g +:+ pretty n) = Some (g, pretty n).
Proof.
  intros Hg. apply regex_match_spec. exists "". rewrite app_empty_l.
  split; [done|]. split; [done|]. split; [apply pretty_N_digits|].
  split; [apply pretty_N_nonempty|]. by left.
Qed.

(** The value that [select(m,g,n)] writes for module [m] is read back by the
    parser as the one triple [(m,g,n)], without a diagnostic, when [n] is
    below 2^53, [m] is selected and the group id holds no digit and no
    comma. *)
Theorem select_then_parse (id_of : ref → string) (S : list ref)
    (s : list Occurrence) (q : gmap string string) (m g : string) (n : N) :
  safe_integer n = true →
  m ∈ map id_of S →
  all_chars non_digit g = true →
  all_chars (λ c, negb (Ascii.eqb c ",")) g = true →
  ∃ s' q' v,
    dispatch changeOccurrences (s, q) (MkAction "select" (m, g, n)) = Some (s', q')
    ∧ q' !! m = Some v
    ∧ getSpecOccurrences id_of S [(m, v)] = MkEff [] (Some [(m, g, n)]).
Proof.
  intros _ Hsel Hg Hcomma.
  destruct (dispatch changeOccurrences (s, q) (MkAction "select" (m, g, n)))
    as [[s' q']|] eqn:Hd; [|done].
  exists s', q', (g +:+ pretty n). split; [done|].
  apply dispatch_occurrence_step in Hd as [(_ & _ & ->)|(Ht & _)]; [|done].
  simpl. split; [apply lookup_insert_eq|].
  rewrite getSpecOccurrences_flat. simpl.
  rewrite split_no_sep.
  - simpl. rewrite tokenOccurrence_cases, bool_decide_eq_true_2 by done.
    rewrite regex_match_printed by done. simpl. by rewrite parseInt_pretty.
  - rewrite all_chars_app, Hcomma. simpl.
    apply (all_chars_impl is_digit); [apply digit_is_no_comma|apply pretty_N_digits].
Qed.

Lemma select_then_parse_witness :
  ∃ s' q' v,
    dispatch changeOccurrences ([], ∅) (MkAction "select" ("COMP1130", "ComA", 12%N))
      = Some (s', q')
    ∧ q' !! "COMP1130" = Some v
    ∧ getSpecOccurrences (λ _, "COMP1130") [1%positive] [("COMP1130", v)]
      = MkEff [] (Some [("COMP1130", "ComA", 12%N)]).
Proof.
  refine (select_then_parse (λ _, "COMP1130") [1%positive] [] ∅ "COMP1130" "ComA" 12%N
            _ _ _ _).
  - reflexivity.
  - simpl. apply list_elem_of_here.
  - reflexivity.
  - reflexivity.
Defined.

(** ** The parser at startup *)

Lemma initial_ids (m : list (string * string)) :
  map (initial_id_of m) (initialSelectedModules m) = map fst m.
Proof.
  unfold initialSelectedModules. apply list_eq. intros i.
  rewrite !list_lookup_fmap.
  destruct (decide (i < length m)) as [Hi|Hi].
  - rewrite lookup_seq_lt by done. simpl. unfold initial_id_of.
    rewrite SuccNat2Pos.id_succ. simpl.
    destruct (lookup_lt_is_Some_2 m i Hi) as [x Hx]. by rewrite Hx.
  - rewrite lookup_seq_ge by lia. simpl.
    by rewrite lookup_ge_None_2 by lia.
Qed.

(** At startup the selected modules are made from the pairs of the URL, one
    distinct object per pair, so the module of every pair is selected and a
    token of its occurrence string gives a triple exactly when it ends in a
    digit: no token is dropped for its module. *)
Theorem startup_selects_every_pair (m : list (string * string))
    (module occurrences t : string) :
  (module, occurrences) ∈ m →
  NoDup (initialSelectedModules m)
  ∧ length (initialSelectedModules m) = length m
  ∧ module ∈ map (initial_id_of m) (initialSelectedModules m)
  ∧ ((∃ tr, result (tokenOccurrence (initial_id_of m) (initialSelectedModules m) module t)
            = Some [tr])
     ↔ ends_in_digit t = true).
Proof.
  intros Hin.
  assert (module ∈ map (initial_id_of m) (initialSelectedModules m)) as Hsel.
  { rewrite initial_ids. by apply (list_elem_of_fmap_2 fst) in Hin. }
  split; [|split; [|split; [done|]]].
  - unfold initialSelectedModules. apply NoDup_fmap_2; [|apply NoDup_seq].
    intros i j Hij. by apply SuccNat2Pos.inj.
  - unfold initialSelectedModules. by rewrite length_map, length_seq.
  - rewrite tokenOccurrence_cases, bool_decide_eq_true_2 by done.
    rewrite <- regex_match_is_Some.
    destruct (regex_match t) as [[g d]|]; simpl.
    + split; [by eexists|]. intros _. by eexists.
    + split; [by intros [tr ?]|]. by intros [? ?].
Qed.

Lemma startup_selects_every_pair_witness :
  ∃ tr, result (tokenOccurrence (initial_id_of [("COMP1130", "ComA1")])
                  (initialSelectedModules [("COMP1130", "ComA1")]) "COMP1130" "ComA1")
        = Some [tr].
Proof.
  destruct (startup_selects_every_pair [("COMP1130", "ComA1")] "COMP1130" "ComA1" "ComA1")
    as (_ & _ & _ & Hiff).
  - apply list_elem_of_here.
  - apply Hiff. reflexivity.
Defined.

(** ** The selection reducer as a diff *)

Lemma filter_not_included (l xs : list ref) :
  List.filter (λ m, negb (includes l m)) xs = filter (λ x, x ∉ l) xs.
Proof.
  induction xs as [|a xs IH]; [done|]. simpl. rewrite filter_cons, IH.
  destruct (negb (includes l a)) eqn:E.
  - apply not_includes_spec in E. by rewrite decide_True.
  - rewrite decide_False; [done|]. intros Hn. apply not_includes_spec in Hn. congruence.
Qed.

(** The calls of a transition, in the order they are made: one unset for
    each occurrence in the state of an object that is not in the new array,
    in the order of the state, then one set, with no value, for each
    occurrence in the new array of an object that is not in the state, in the
    order of the new array; nothing else is called, and the new array is
    returned. *)
Theorem selection_diff (id_of : ref → string) (state updatedModules : list ref) :
  selectedModulesReducer id_of state updatedModules
  = MkEff (((λ x, UnsetParam (id_of x)) <$> filter (λ x, x ∉ updatedModules) state)
           ++ ((λ x, SetParam (id_of x) None) <$> filter (λ x, x ∉ state) updatedModules))
          (Some updatedModules).
Proof.
  rewrite selectedModulesReducer_writes. by rewrite !filter_not_included.
Qed.

Lemma filter_bool_nil {A} (f : A → bool) (l : list A) :
  List.filter f l = [] ↔ ∀ x, x ∈ l → f x = false.
Proof.
  induction l as [|a l IH]; simpl.
  - split; [|done]. intros _ x Hx. by apply elem_of_nil in Hx.
  - destruct (f a) eqn:Ea.
    + split; [done|]. intros H. specialize (H a (list_elem_of_here _ _)). congruence.
    + rewrite IH. split.
      * intros H x [->|Hx]%elem_of_cons; auto.
      * intros H x Hx. apply H. by apply list_elem_of_further.
Qed.

Lemma map_nil_iff {A B} (f : A → B) (l : list A) : map f l = [] ↔ l = [].
Proof. by destruct l. Qed.

(** A transition makes no call at all exactly when the state and the new
    array hold the same objects, in whatever order and number. *)
Theorem selection_silent_iff_same_objects (id_of : ref → string)
    (state updatedModules : list ref) :
  writes (selectedModulesReducer id_of state updatedModules) = []
  ↔ ∀ x, x ∈ state ↔ x ∈ updatedModules.
Proof.
  rewrite selectedModulesReducer_writes. simpl.
  rewrite app_nil. rewrite !map_nil_iff, !filter_bool_nil.
  split.
  - intros [H1 H2] x. split; intros Hx.
    + specialize (H1 x Hx). apply negb_false_iff in H1. by apply includes_spec.
    + specialize (H2 x Hx). apply negb_false_iff in H2. by apply includes_spec.
  - intros H. split; intros x Hx; apply negb_false_iff, includes_spec; by apply H.
Qed.

(** ** The catalog of modules *)

Lemma processModule_None {V} (raw : gmap string (field V)) :
  processModule raw = None ↔ ¬ ∃ title, raw !! "title" = Some (Text title).
Proof.
  unfold processModule. destruct (raw !! "title") as [[title|v]|].
  - split; [done|]. intros H. exfalso. apply H. by exists title.
  - split; [|done]. intros _ [title ?]. done.
  - split; [|done]. intros _ [title ?]. done.
Qed.

Lemma fold_None {V} (data : list (string * gmap string (field V)))
    (acc : gmap string (gmap string (field V))) :
  foldl addModule (Some acc) data = None
  ↔ ∃ k e, (k, e) ∈ data ∧ processModule e = None.
Proof.
  revert acc. induction data as [|[k e] data IH]; intros acc.
  - simpl. split; [done|]. intros (k & e & Hin & _). by apply elem_of_nil in Hin.
  - simpl. destruct (processModule e) as [r|] eqn:Er; simpl.
    + rewrite IH. split.
      * intros (k' & e' & Hin & Hn). exists k', e'. split; [by apply list_elem_of_further|done].
      * intros (k' & e' & [[= -> ->]|Hin]%elem_of_cons & Hn); [congruence|].
        by exists k', e'.
    + rewrite fold_thrown. split; [|done]. intros _. exists k, e.
      split; [apply list_elem_of_here|done].
Qed.

(** The effect throws, and sets no catalog at all, exactly when the title
    of some entry of the dataset is not a string. *)
Theorem setModules_throws_iff {V} (timetableData : list (string * gmap string (field V))) :
  setModules timetableData = None
  ↔ ∃ key raw, (key, raw) ∈ timetableData
               ∧ ¬ ∃ title, raw !! "title" = Some (Text title).
Proof.
  unfold setModules. rewrite fold_None.
  split; intros (k & e & Hin & Hn); exists k, e; (split; [done|]);
    by apply processModule_None.
Qed.

Lemma fold_records {V} (data : list (string * gmap string (field V)))
    (acc cat : gmap string (gmap string (field V))) :
  foldl addModule (Some acc) data = Some cat →
  (∀ code r, cat !! code = Some r →
     acc !! code = Some r
     ∨ ∃ k e, (k, e) ∈ data ∧ module_code k = code ∧ processModule e = Some r)
  ∧ (∀ code, is_Some (acc !! code) → is_Some (cat !! code))
  ∧ (∀ k e, (k, e) ∈ data → is_Some (cat !! module_code k)).
Proof.
  revert acc. induction data as [|[k e] data IH]; intros acc Hf.
  - simpl in Hf. injection Hf as <-. split; [by left|]. split; [done|].
    intros k e Hin. by apply elem_of_nil in Hin.
  - simpl in Hf. destruct (processModule e) as [r0|] eqn:Er; simpl in Hf;
      [|by rewrite fold_thrown in Hf].
    destruct (IH _ Hf) as (H1 & H2 & H3). split; [|split].
    + intros code r Hc. destruct (H1 code r Hc) as [Hacc|(k' & e' & Hin & Hk & Hp)].
      * destruct (decide (module_code k = code)) as [<-|Hne].
        -- rewrite lookup_insert_eq in Hacc. injection Hacc as <-.
           right. exists k, e. split; [apply list_elem_of_here|done].
        -- rewrite lookup_insert_ne in Hacc by done. by left.
      * right. exists k', e'. split; [by apply list_elem_of_further|done].
    + intros code Hs. apply H2. destruct (decide (module_code k = code)) as [<-|Hne].
      * by rewrite lookup_insert_eq.
      * by rewrite lookup_insert_ne.
    + intros k' e' [[= -> ->]|Hin]%elem_of_cons.
      * apply H2. by rewrite lookup_insert_eq.
      * by apply (H3 k' e').
Qed.

(** The catalog has a record for the code of every key of the dataset and
    for no other code, and each record is what [processModule] gives for an
    entry with that code: it has a title and no [id] and no [classes]. *)
Theorem catalog_records {V} (timetableData : list (string * gmap string (field V)))
    (cat : gmap string (gmap string (field V))) :
  setModules timetableData = Some cat →
  (∀ code, is_Some (cat !! code)
           ↔ ∃ key raw, (key, raw) ∈ timetableData ∧ module_code key = code)
  ∧ (∀ code r, cat !! code = Some r →
       (∃ key raw, (key, raw) ∈ timetableData ∧ module_code key = code
                   ∧ processModule raw = Some r)
       ∧ (∃ title, r !! "title" = Some (Text title))
       ∧ r !! "id" = None ∧ r !! "classes" = None).
Proof.
  intros Hf. destruct (fold_records _ _ _ Hf) as (H1 & _ & H3).
  assert (∀ code r, cat !! code = Some r →
            ∃ key raw, (key, raw) ∈ timetableData ∧ module_code key = code
                       ∧ processModule raw = Some r) as Hrec.
  { intros code r Hc. destruct (H1 code r Hc) as [He|?]; [|done].
    by rewrite lookup_empty in He. }
  split.
  - intros code. split.
    + intros [r Hc]. destruct (Hrec code r Hc) as (k & e & Hin & Hk & _). by exists k, e.
    + intros (k & e & Hin & <-). by apply (H3 k e).
  - intros code r Hc. split; [by apply Hrec|].
    destruct (Hrec code r Hc) as (k & e & _ & _ & Hp).
    unfold processModule in Hp. destruct (e !! "title") as [[title|v]|]; [|done..].
    injection Hp as <-. split; [|split].
    + eexists. apply lookup_insert_eq.
    + by rewrite lookup_insert_ne, lookup_delete_ne, lookup_delete_eq.
    + by rewrite lookup_insert_ne, 2!lookup_delete_ne, lookup_delete_eq.
Qed.

Lemma catalog_records_witness :
  ∃ cat,
    setModules [("COMP1130_S1", <["title" := Text "first"]> (∅ : gmap string (field unit)));
                ("MATH1005_S1", <["title" := Text "other"]> ∅)] = Some cat
    ∧ is_Some (cat !! "MATH1005").
Proof.
  destruct (setModules
              [("COMP1130_S1", <["title" := Text "first"]> (∅ : gmap string (field unit)));
               ("MATH1005_S1", <["title" := Text "other"]> ∅)]) as [cat|] eqn:Hc.
  - exists cat. split; [reflexivity|].
    apply (proj1 (catalog_records _ cat Hc)).
    eexists "MATH1005_S1", _. split; [|reflexivity].
    apply list_elem_of_further, list_elem_of_here.
  - vm_compute in Hc. discriminate.
Defined.

Lemma hd_split_cons (sep c : ascii) (s : string) :
  hd "" (split sep (String c s))
  = if Ascii.eqb c sep then "" else String c (hd "" (split sep s)).
Proof.
  simpl. destruct (Ascii.eqb c sep); [done|]. by destruct (split sep s).
Qed.

(** The code of a key holds no underscore, and the key is the code alone or
    the code, an underscore and the rest: a key is cut at its first
    underscore. *)
Theorem module_code_cuts_at_first_underscore (key : string) :
  all_chars (λ c, negb (Ascii.eqb c "_")) (module_code key) = true
  ∧ (key = module_code key ∨ ∃ rest, key = module_code key +:+ String "_" rest).
Proof.
  unfold module_code. induction key as [|c key [IH1 IH2]].
  - split; [done|]. by left.
  - rewrite hd_split_cons. destruct (Ascii.eqb_spec c "_") as [->|Hne].
    + split; [done|]. right. by exists key.
    + split.
      * simpl. rewrite IH1. by rewrite (proj2 (Ascii.eqb_neq c "_") Hne).
      * destruct IH2 as [IH2|[rest IH2]].
        -- left. by rewrite <- IH2.
        -- right. exists rest. rewrite app_cons. by rewrite <- IH2.
Qed.

Lemma has_tag_length (s : string) : has_tag s = true → (3 ≤ String.length s)%nat.
Proof.
  induction s as [|c s IH]; [done|]. rewrite has_tag_unfold.
  destruct (tag_here (String c s)) eqn:Et.
  - intros _. destruct s as [|a [|b s]]; simpl in Et; try done. simpl. lia.
  - intros H. specialize (IH H). simpl. lia.
Qed.

(** The title loses exactly the three characters of one tag when the
    pattern occurs in it, also when it occurs more than once, and nothing
    otherwise. *)
Theorem replace_tag_length (title : string) :
  (String.length (replace_tag title) + (if has_tag title then 3 else 0)
   = String.length title)%nat.
Proof.
  induction title as [|c s IH]; [done|].
  rewrite replace_tag_unfold, has_tag_unfold.
  destruct (tag_here (String c s)) as [rest|] eqn:Et.
  - destruct s as [|a [|b s]]; simpl in Et; try done.
    destruct (Ascii.eqb c "_" && is_upper a && is_1_to_9 b); [|done].
    injection Et as <-. simpl. lia.
  - simpl. destruct (has_tag s) eqn:Eh; [|lia].
    pose proof (has_tag_length s Eh). lia.
Qed.

(** ** Preferences *)

(** The theme that is saved is the theme that is loaded: after
    [saveTheme(theme)], [loadTheme] returns ['dark'] when [theme] is
    ['dark'] and ['light'] otherwise, and, from the initial [darkMode] of a
    reload as well as from the one just set, leaves [darkMode] true exactly
    when [theme] is ['dark']. *)
Theorem theme_round_trip (theme : string) (localStorage : gmap string string) :
  let '(localStorage', darkMode') := saveTheme theme localStorage in
  darkMode' = bool_decide (theme = "dark")
  ∧ loadTheme localStorage' darkMode'
    = (if decide (theme = "dark") then "dark" else "light", darkMode')
  ∧ loadTheme localStorage' false
    = (if decide (theme = "dark") then "dark" else "light", darkMode')
  ∧ ∀ key, key ≠ "darkMode" → localStorage' !! key = localStorage !! key.
Proof.
  unfold saveTheme, loadTheme. split; [done|].
  rewrite lookup_insert_eq.
  destruct (decide (theme = "dark")) as [->|Hne]; simpl.
  - split; [done|]. split; [done|]. intros key Hk. by rewrite lookup_insert_ne.
  - rewrite bool_decide_eq_false_2 by done.
    split; [done|]. split; [done|]. intros key Hk. by rewrite lookup_insert_ne.
Qed.

Lemma truthy_nonempty (v : option string) (s : string) :
  truthy v = true → v = Some s → s ≠ "".
Proof. intros Ht ->. simpl in Ht. by destruct s. Qed.

(** The initial time zone, when the expression does not throw, is never the
    empty string; and once it has been stored by the effect, it is what every
    later start gives, whatever the browser reports, without throwing. *)
Theorem time_zone_persists (stored : option string) (intl intl' : IntlTimeZone)
    (localStorage : gmap string string) (timeZone : string) :
  initialTimeZone stored intl = Some timeZone →
  timeZone ≠ ""
  ∧ initialTimeZone (storeTimeZone timeZone localStorage !! "timeZone") intl'
    = Some timeZone.
Proof.
  intros Hi.
  assert (timeZone ≠ "") as Hne.
  { unfold initialTimeZone in Hi. destruct (truthy stored) eqn:Es.
    - by apply (truthy_nonempty stored).
    - destruct intl as [| | | | |tz]; try done; try (injection Hi as <-; done).
      destruct (truthy (Some (replace_UTC tz))) eqn:Er.
      + by apply (truthy_nonempty (Some (replace_UTC tz))).
      + injection Hi as <-. done. }
  split; [done|].
  unfold storeTimeZone. rewrite lookup_insert_eq. unfold initialTimeZone. simpl.
  destruct timeZone; [done|]. reflexivity.
Qed.

Lemma time_zone_persists_witness :
  initialTimeZone (storeTimeZone "Etc/GMT" ∅ !! "timeZone") NoTimeZone = Some "Etc/GMT".
Proof.
  refine (proj2 (time_zone_persists None (TimeZone "UTC") NoTimeZone ∅ "Etc/GMT" _)).
  reflexivity.
Defined.

(** With nothing stored, or the empty string, the initial time zone comes
    from the browser: it is never ["UTC"], which is replaced by ["Etc/GMT"];
    any other non-empty zone is used as it is; it is the default when the
    call of the formatter or of its options returns nothing, or the zone is
    empty; and the expression throws exactly when [Intl.DateTimeFormat] or
    [resolvedOptions] is not a function or the options have no [timeZone]. *)
Theorem time_zone_from_browser (stored : option string) (intl : IntlTimeZone) :
  truthy stored = false →
  initialTimeZone stored intl ≠ Some "UTC"
  ∧ (initialTimeZone stored intl = None
     ↔ intl = DateTimeFormatNotCallable ∨ intl = ResolvedOptionsNotCallable
       ∨ intl = NoTimeZone)
  ∧ (intl = TimeZone "UTC" → initialTimeZone stored intl = Some "Etc/GMT")
  ∧ (∀ tz, intl = TimeZone tz → tz ≠ "UTC" → tz ≠ "" →
           initialTimeZone stored intl = Some tz)
  ∧ (intl = NoDateTimeFormat ∨ intl = NoResolvedOptions ∨ intl = TimeZone "" →
     initialTimeZone stored intl = Some "Australia/Canberra").
Proof.
  intros Hs. unfold initialTimeZone. rewrite Hs.
  split; [|split; [|split; [|split]]].
  - destruct intl as [| | | | |tz]; try done. unfold replace_UTC.
    destruct (decide (tz = "UTC")) as [->|Hne]; [done|].
    destruct tz as [|c tz]; [done|]. simpl. congruence.
  - destruct intl as [| | | | |tz]; try (split; [done|]; by intros [?|[?|?]]); try tauto.
    destruct (truthy (Some (replace_UTC tz))); (split; [done|]); by intros [?|[?|?]].
  - by intros ->.
  - intros tz -> Hne He. unfold replace_UTC. rewrite decide_False by done.
    by destruct tz.
  - by intros [->|[->| ->]].
Qed.

Lemma time_zone_from_browser_witness :
  initialTimeZone (Some "") (TimeZone "UTC") = Some "Etc/GMT"
  ∧ initialTimeZone (Some "") ResolvedOptionsNotCallable = None.
Proof.
  pose proof (time_zone_from_browser (Some "") (TimeZone "UTC") eq_refl) as (_ & _ & H1 & _).
  pose proof (time_zone_from_browser (Some "") ResolvedOptionsNotCallable eq_refl)
    as (_ & H2 & _).
  split; [apply H1; reflexivity|]. apply H2. right. left. reflexivity.
Defined.

Lemma theme_round_trip_witness :
  loadTheme (saveTheme "dark" ∅).1 false = ("dark", true)
  ∧ (saveTheme "dark" (<["weekStart" := "1"]> ∅)).1 !! "weekStart" = Some "1".
Proof.
  pose proof (theme_round_trip "dark" ∅) as H1.
  pose proof (theme_round_trip "dark" (<["weekStart" := "1"]> ∅)) as H2.
  unfold saveTheme in *. simpl in *.
  destruct H1 as (_ & _ & H1 & _). destruct H2 as (_ & _ & _ & H2).
  split; [exact H1|]. rewrite H2; [reflexivity|discriminate].
Defined.

Lemma setModules_throws_iff_witness :
  setModules [("COMP1130_S1", <["title" := Text "first"]> (∅ : gmap string (field nat)));
              ("MATH1005_S1", <["title" := Other 3]> ∅)] = None.
Proof.
  apply setModules_throws_iff.
  eexists "MATH1005_S1", _. split; [apply list_elem_of_further, list_elem_of_here|].
  intros [title Ht]. vm_compute in Ht. discriminate.
Defined.

(** The effect that reads [weekStart] keeps the state between 0 and 6 and
    touches no other key; what it leaves under [weekStart] was there before
    and is the empty string or parses to the state; and running it again
    changes nothing. *)
Theorem week_start_in_range (jsParseInt : string → option Z)
    (localStorage : gmap string string) (weekStart : Z) :
  (0 ≤ weekStart ≤ 6)%Z →
  let '(localStorage', weekStart') := weekStartEffect jsParseInt localStorage weekStart in
  (0 ≤ weekStart' ≤ 6)%Z
  ∧ (∀ key, key ≠ "weekStart" → localStorage' !! key = localStorage !! key)
  ∧ (∀ v, localStorage' !! "weekStart" = Some v →
          localStorage !! "weekStart" = Some v
          ∧ (v = "" ∧ weekStart' = weekStart ∨ jsParseInt v = Some weekStart'))
  ∧ weekStartEffect jsParseInt localStorage' weekStart' = (localStorage', weekStart').
Proof.
  intros Hw. unfold weekStartEffect.
  destruct (localStorage !! "weekStart") as [v|] eqn:El.
  - destruct (truthy (Some v)) eqn:Et.
    + destruct (jsParseInt v) as [n|] eqn:Ep.
      * destruct ((0 <=? n)%Z && (n <=? 6)%Z)%bool eqn:Er.
        -- apply andb_true_iff in Er as [H0 H6].
           apply Z.leb_le in H0. apply Z.leb_le in H6.
           split; [lia|]. split; [done|]. split.
           ++ intros v' Hv'. rewrite El in Hv'. injection Hv' as <-. split; [done|].
              by right.
           ++ rewrite El, Et, Ep.
              by rewrite (proj2 (Z.leb_le 0 n) H0), (proj2 (Z.leb_le n 6) H6).
        -- split; [lia|]. split; [intros key Hk; by apply lookup_delete_ne|]. split.
           ++ intros v' Hv'. by rewrite lookup_delete_eq in Hv'.
           ++ by rewrite lookup_delete_eq.
      * split; [lia|]. split; [intros key Hk; by apply lookup_delete_ne|]. split.
        -- intros v' Hv'. by rewrite lookup_delete_eq in Hv'.
        -- by rewrite lookup_delete_eq.
    + split; [lia|]. split; [done|]. split.
      * intros v' Hv'. rewrite El in Hv'. injection Hv' as <-. split; [done|].
        left. split; [|done]. simpl in Et. by destruct v.
      * by rewrite El, Et.
  - split; [lia|]. split; [done|]. split.
    + intros v' Hv'. by rewrite El in Hv'.
    + by rewrite El.
Qed.

Lemma week_start_in_range_witness :
  (0 ≤ (weekStartEffect (λ s, Some (Z.of_N (parseInt s))) (<["weekStart" := "9"]> ∅) 3).2 ≤ 6)%Z.
Proof.
  pose proof (week_start_in_range (λ s, Some (Z.of_N (parseInt s)))
                (<["weekStart" := "9"]> ∅) 3%Z) as H.
  destruct (weekStartEffect (λ s, Some (Z.of_N (parseInt s))) (<["weekStart" := "9"]> ∅) 3)
    as [ls w].
  destruct H as (H & _); [lia|]. exact H.
Defined.

Lemma foldl_append_one {A B} (f : A → B) (l : list A) (acc : list B) :
  foldl (λ acc x, acc ++ (if array_truthy [f x] then [f x] else [])) acc l
  = acc ++ map f l.
Proof.
  revert acc. induction l as [|a l IH]; intros acc; simpl.
  - by rewrite app_nil_r.
  - rewrite IH. by rewrite <- app_assoc.
Qed.

(** When [hiddenDays] is stored, the effect sets the state to one entry per
    comma-separated token of the stored string, in order: the token parsed,
    [NaN] included, so nothing is discarded and the state is never empty.
    When it is not stored, the state is as before. *)
Theorem hidden_days_keeps_every_token (jsParseInt : string → option Z)
    (localStorage : gmap string string) (hiddenDays : list (option Z)) :
  (∀ stored, localStorage !! "hiddenDays" = Some stored →
     hiddenDaysEffect jsParseInt localStorage hiddenDays
       = map jsParseInt (split "," stored)
     ∧ hiddenDaysEffect jsParseInt localStorage hiddenDays ≠ [])
  ∧ (localStorage !! "hiddenDays" = None →
     hiddenDaysEffect jsParseInt localStorage hiddenDays = hiddenDays).
Proof.
  unfold hiddenDaysEffect. split.
  - intros stored ->. rewrite foldl_append_one. simpl. split; [done|].
    pose proof (split_nonempty "," stored). by destruct (split "," stored).
  - by intros ->.
Qed.

Lemma hidden_days_keeps_every_token_witness :
  hiddenDaysEffect (λ s, if ends_in_digit s then Some (Z.of_N (parseInt s)) else None)
    (<["hiddenDays" := "0,x,6"]> ∅) []
  = [Some 0%Z; None; Some 6%Z].
Proof.
  refine (proj1 (proj1 (hidden_days_keeps_every_token
            (λ s, if ends_in_digit s then Some (Z.of_N (parseInt s)) else None)
            (<["hiddenDays" := "0,x,6"]> ∅) []) "0,x,6" _)).
  reflexivity.
Defined.
